(** * Natural-breaks classification of MapTab.vue

    Shallow embedding of [calculateNaturalBreaks], [assignLevelsToFeatures]
    and [ensureHexData2Levels] from [src/tabs/MapTab.vue].

    Numbers.  A JavaScript Number is modelled by [num]: a finite double,
    written as the rational it stands for, one of the two infinities, or
    NaN.  Comparisons of doubles are the comparisons of these rationals.
    The arithmetic of the dynamic programme and of the equal-interval
    fallback is the arithmetic of doubles: the exact result of an operation
    is rounded by [round64] to the nearest double, to the even one on a tie
    and to an infinity past the largest double.  The sign of zero is not
    modelled; no operation of the modelled code tells the two zeros apart.

    Arrays.  A JavaScript array is a [list]; reads and writes go through
    [arr_get], [arr_set], [get2] and [set2], which answer [None] whenever the
    index lies outside the array, and the model then stops with the outcome
    [OutOfBounds].  The theorems show that, for [classCount >= 1], the
    dynamic programme reaches this outcome in one place only, the walk back
    through [lowerClassLimits] of lines 487-492 when it meets the limit 0 with
    classes left, which is where the source reads
    [lowerClassLimits[-1][count]] and raises a [TypeError].  With
    [classCount = 0], which the one call of line 555 never passes, the rows
    of the tables have one entry and the writes of lines 448-449 to column 1
    lie past their end: JavaScript lengthens the row there, the model answers
    [OutOfBounds], and the theorems about raising leave that case out. *)

From Stdlib Require Import QArith Qminmax Lia Lqa List Sorting.Sorted Sorting.Permutation.
From Stdlib Require Qcanon.
From stdpp Require Import base option list sorting strings gmap.

Local Open Scope nat_scope.

(** ** JavaScript numbers *)

Inductive num : Type :=
| Fin (q : Q)
| PInf
| NInf
| NaN.

(** [Number.isFinite] *)
Definition isFinite (x : num) : bool :=
  match x with Fin _ => true | _ => false end.

(** The finite members of an array of numbers, what
    [values.filter((value) => Number.isFinite(value))] keeps. *)
Fixpoint filterFinite (values : list num) : list Q :=
  match values with
  | [] => []
  | Fin q :: rest => q :: filterFinite rest
  | _ :: rest => filterFinite rest
  end.

(** [x < y] on finite numbers *)
Definition Qltb (x y : Q) : bool := negb (Qle_bool y x).

(** ** The arithmetic of doubles *)

(** The whole number nearest to [n / d], the even one where two are equally
    near; for [0 <= n] and [0 < d]. *)
Definition nearestEven (n d : Z) : Z :=
  let q := (n / d)%Z in
  match (2 * (n mod d) ?= d)%Z with
  | Lt => q
  | Gt => (q + 1)%Z
  | Eq => if Z.even q then q else (q + 1)%Z
  end.

(** [n / d < 2 ^ k], for [0 < n] and [0 < d]. *)
Definition belowPower (n d k : Z) : bool :=
  if (0 <=? k)%Z then (n <? d * 2 ^ k)%Z else (n * 2 ^ (- k) <? d)%Z.

(** The exponent of the last binary place of the doubles next to [n / d],
    for [0 < n] and [0 < d]: 52 places below the leading one, and -1074 at
    the least, which is the last place of the subnormal doubles. *)
Definition lastPlace (n d : Z) : Z :=
  let k := (Z.log2 n - Z.log2 d)%Z in
  let leading := if belowPower n d k then (k - 1)%Z else k in
  Z.max (leading - 52) (-1074).

(** The double nearest to [n / d], for [0 < n] and [0 < d]; [None] when the
    rounded value passes the largest double, [(2 ^ 53 - 1) * 2 ^ 971]. *)
Definition nearestDouble (n d : Z) : option Q :=
  let e := lastPlace n d in
  let m := if (0 <=? e)%Z then nearestEven n (d * 2 ^ e)
           else nearestEven (n * 2 ^ (- e)) d in
  if (971 <? e)%Z || ((e =? 971)%Z && (m =? 2 ^ 53)%Z) then None
  else if (0 <=? e)%Z then Some (inject_Z (m * 2 ^ e))
  else Some (Qred (Qmake m (Z.to_pos (2 ^ (- e))))).

(** A real number rounded to a double: to the nearest one, to the even one
    on a tie, to an infinity past the largest double. *)
Definition round64 (q : Q) : num :=
  match Qnum q with
  | Z0 => Fin 0
  | Zpos n =>
      match nearestDouble (Zpos n) (Zpos (Qden q)) with
      | Some r => Fin r
      | None => PInf
      end
  | Zneg n =>
      match nearestDouble (Zpos n) (Zpos (Qden q)) with
      | Some r => Fin (- r)
      | None => NInf
      end
  end.

(** [x + y] *)
Definition fl_add (x y : num) : num :=
  match x, y with
  | NaN, _ | _, NaN => NaN
  | PInf, NInf | NInf, PInf => NaN
  | PInf, _ | _, PInf => PInf
  | NInf, _ | _, NInf => NInf
  | Fin a, Fin b => round64 (a + b)
  end.

(** [x - y] *)
Definition fl_sub (x y : num) : num :=
  match x, y with
  | NaN, _ | _, NaN => NaN
  | PInf, PInf | NInf, NInf => NaN
  | PInf, _ | _, NInf => PInf
  | NInf, _ | _, PInf => NInf
  | Fin a, Fin b => round64 (a - b)
  end.

(** The product of an infinity, positive when [positive] holds, and the
    finite number [a]. *)
Definition scaledInfinity (positive : bool) (a : Q) : num :=
  match Qcompare a 0 with
  | Eq => NaN
  | Gt => if positive then PInf else NInf
  | Lt => if positive then NInf else PInf
  end.

(** [x * y] *)
Definition fl_mul (x y : num) : num :=
  match x, y with
  | NaN, _ | _, NaN => NaN
  | PInf, PInf | NInf, NInf => PInf
  | PInf, NInf | NInf, PInf => NInf
  | PInf, Fin a | Fin a, PInf => scaledInfinity true a
  | NInf, Fin a | Fin a, NInf => scaledInfinity false a
  | Fin a, Fin b => round64 (a * b)
  end.

(** [x / y].  A zero divisor is taken as the positive zero; the modelled
    code divides by loop counters from 1 on only. *)
Definition fl_div (x y : num) : num :=
  match x, y with
  | NaN, _ | _, NaN => NaN
  | PInf, Fin b => if Qle_bool 0 b then PInf else NInf
  | NInf, Fin b => if Qle_bool 0 b then NInf else PInf
  | Fin _, PInf | Fin _, NInf => Fin 0
  | Fin a, Fin b =>
      match Qcompare b 0 with
      | Eq => scaledInfinity true a
      | _ => round64 (a / b)
      end
  | _, _ => NaN
  end.

(** [x < y] *)
Definition num_ltb (x y : num) : bool :=
  match x, y with
  | NaN, _ | _, NaN => false
  | Fin a, Fin b => Qltb a b
  | NInf, NInf => false
  | NInf, _ => true
  | _, NInf => false
  | PInf, _ => false
  | Fin _, PInf => true
  end.

(** [x <= y] *)
Definition num_leb (x y : num) : bool :=
  match x, y with
  | NaN, _ | _, NaN => false
  | Fin a, Fin b => Qle_bool a b
  | NInf, _ => true
  | _, PInf => true
  | _, NInf => false
  | PInf, _ => false
  end.

(** The number of a loop counter. *)
Definition ofNat (n : nat) : Q := inject_Z (Z.of_nat n).

(** ** Arrays *)

Definition arr_get {A} (a : list A) (i : nat) : option A := a !! i.

Definition arr_set {A} (a : list A) (i : nat) (x : A) : option (list A) :=
  if decide (i < length a) then Some (<[i := x]> a) else None.

(** [t[i][j]] *)
Definition get2 {A} (t : list (list A)) (i j : nat) : option A :=
  row ← t !! i; row !! j.

(** [t[i][j] = x] *)
Definition set2 {A} (t : list (list A)) (i j : nat) (x : A) : option (list (list A)) :=
  row ← t !! i; row' ← arr_set row j x; arr_set t i row'.

(** [Array(rows).fill(0).map(() => Array(cols).fill(zero))] *)
Definition newTable {A} (rows cols : nat) (zero : A) : list (list A) :=
  replicate rows (replicate cols zero).

(** The counters [lo, lo + 1, ..., hi] of an ascending [for] loop and
    [hi, hi - 1, ..., lo] of a descending one. *)
Definition upTo (lo hi : nat) : list nat := seq lo (S hi - lo).
Definition downTo (hi lo : nat) : list nat := reverse (upTo lo hi).

(** A [for] loop whose body may stop the computation. *)
Fixpoint forM {St} (counters : list nat) (body : nat → St → option St) (s : St)
    : option St :=
  match counters with
  | [] => Some s
  | i :: rest => s' ← body i s; forM rest body s'
  end.

(** ** Sorting and the set of distinct values *)

(** [values.sort((a, b) => a - b)]: the sort is stable, so its result is the
    one of any stable sort; insertion from the right is one. *)
Fixpoint insertSorted (x : Q) (l : list Q) : list Q :=
  match l with
  | [] => [x]
  | y :: rest => if Qle_bool x y then x :: y :: rest else y :: insertSorted x rest
  end.

Fixpoint sortAscending (l : list Q) : list Q :=
  match l with
  | [] => []
  | x :: rest => insertSorted x (sortAscending rest)
  end.

(** [Array.from(new Set(l))]: the members of [l] in the order of their first
    occurrence; [seen] holds the members met so far. *)
Fixpoint distinctFrom (seen : list Q) (l : list Q) : list Q :=
  match l with
  | [] => []
  | x :: rest =>
      if existsb (Qeq_bool x) seen then distinctFrom seen rest
      else x :: distinctFrom (x :: seen) rest
  end.

Definition distinct (l : list Q) : list Q := distinctFrom [] l.

(** ** calculateNaturalBreaks *)

Inductive outcome : Type :=
| Null
| Breaks (breaks : list Q)
| OutOfBounds.

(** The two tables and the two prefix-sum arrays of the dynamic programme. *)
Record tables : Type := Tables {
  lowerClassLimits : list (list nat);
  varianceCombinations : list (list num);
  sum : list num;
  sumSquares : list num
}.

Section NaturalBreaks.
Variable sorted : list Q.
Variable classCount : nat.

(** Lines 417-424: the distinct values, then the largest one repeated
    while [breaks.length < classCount + 1]. *)
Definition paddedBreaks (uniqueValues : list Q) : list Q :=
  match last uniqueValues with
  | Some top => uniqueValues ++ replicate (S classCount - length uniqueValues) top
  | None => uniqueValues
  end.

(** Lines 434-440. *)
Definition initColumn (i : nat) (t : tables) : option tables :=
  lcl ← set2 (lowerClassLimits t) 1 i 1;
  vc ← set2 (varianceCombinations t) 1 i (Fin 0);
  vc' ← forM (upTo 2 (length sorted)) (λ j vc, set2 vc j i PInf) vc;
  Some (Tables lcl vc' (sum t) (sumSquares t)).

(** Lines 445-451. *)
Definition prefixStep (i : nat) (t : tables) : option tables :=
  val ← arr_get sorted (i - 1);
  s0 ← arr_get (sum t) (i - 1);
  s ← arr_set (sum t) i (fl_add s0 (Fin val));
  q0 ← arr_get (sumSquares t) (i - 1);
  sq ← arr_set (sumSquares t) i (fl_add q0 (fl_mul (Fin val) (Fin val)));
  si ← arr_get s i;
  qi ← arr_get sq i;
  vc ← set2 (varianceCombinations t) i 1
            (fl_sub qi (fl_div (fl_mul si si) (Fin (ofNat i))));
  lcl ← set2 (lowerClassLimits t) i 1 1;
  Some (Tables lcl vc s sq).

(** Lines 458-474: one candidate lower limit [i] of the last class. *)
Definition candidateStep (t : tables) (classes item i : nat)
    (best : num * nat) : option (num * nat) :=
  let count := item - i + 1 in
  sItem ← arr_get (sum t) item;
  sPrev ← arr_get (sum t) (i - 1);
  qItem ← arr_get (sumSquares t) item;
  qPrev ← arr_get (sumSquares t) (i - 1);
  let sumRange := fl_sub sItem sPrev in
  let sumSquaresRange := fl_sub qItem qPrev in
  let currentVariance :=
    fl_sub sumSquaresRange (fl_div (fl_mul sumRange sumRange) (Fin (ofNat count))) in
  if num_ltb currentVariance (Fin 0) then Some best
  else
    previous ← get2 (varianceCombinations t) (i - 1) (classes - 1);
    let totalVariance := fl_add currentVariance previous in
    if num_ltb totalVariance (fst best) then Some (totalVariance, i) else Some best.

(** Lines 454-478. *)
Definition itemStep (classes item : nat) (t : tables) : option tables :=
  best ← forM (downTo item classes) (candidateStep t classes item) (PInf, classes - 1);
  vc ← set2 (varianceCombinations t) item classes (fst best);
  lcl ← set2 (lowerClassLimits t) item classes (snd best);
  Some (Tables lcl vc (sum t) (sumSquares t)).

(** Lines 453-479. *)
Definition classesStep (classes : nat) (t : tables) : option tables :=
  forM (upTo classes (length sorted)) (itemStep classes) t.

Definition fillTables : option tables :=
  let n := length sorted in
  let t0 := Tables (newTable (n + 1) (classCount + 1) 0)
                   (newTable (n + 1) (classCount + 1) (Fin 0))
                   (replicate (n + 1) (Fin 0)) (replicate (n + 1) (Fin 0)) in
  t1 ← forM (upTo 1 classCount) initColumn t0;
  t2 ← forM (upTo 1 n) prefixStep t1;
  forM (upTo 2 classCount) classesStep t2.

(** Lines 487-492: [while (count > 0)], with [count] falling by one in
    every round.  The limit [idx = 0] makes [sorted[idx - 1]] the value
    [undefined] and [k] the index -1.  With classes left, the next round
    reads [lowerClassLimits[-1][count]] and raises a [TypeError].  In the
    last round the loop ends, and line 494 writes [sorted[0]] over the
    [undefined] of [breaks[0]]: the entry is left as it is here. *)
Fixpoint backtrack (lcl : list (list nat)) (count k : nat) (breaks : list Q)
    : option (list Q) :=
  match count with
  | 0 => Some breaks
  | S count' =>
      idx ← get2 lcl k count;
      match idx with
      | 0 => match count' with 0 => Some breaks | S _ => None end
      | S below =>
          b ← arr_get sorted below;
          breaks' ← arr_set breaks count' b;
          backtrack lcl count' below breaks'
      end
  end.

(** Lines 496-500: [breaks[i]] raised to [breaks[i - 1]] when below it,
    from left to right; [previous] is the entry just written. *)
Fixpoint raiseFrom (previous : Q) (rest : list Q) : list Q :=
  match rest with
  | [] => []
  | b :: rest' =>
      let b' := if Qltb b previous then previous else b in
      b' :: raiseFrom b' rest'
  end.

Definition enforceMonotone (breaks : list Q) : list Q :=
  match breaks with
  | [] => []
  | b :: rest => b :: raiseFrom b rest
  end.

(** Lines 427-502. *)
Definition jenksBreaks : option (list Q) :=
  t ← fillTables;
  top ← arr_get sorted (length sorted - 1);
  b0 ← arr_set (replicate (classCount + 1) 0%Q) classCount top;
  b1 ← backtrack (lowerClassLimits t) classCount (length sorted) b0;
  bottom ← arr_get sorted 0;
  b2 ← arr_set b1 0 bottom;
  Some (enforceMonotone b2).
End NaturalBreaks.

Definition calculateNaturalBreaks (values : list num) (classCount : nat) : outcome :=
  match values with
  | [] => Null
  | _ =>
      let sorted := sortAscending (filterFinite values) in
      match sorted with
      | [] => Null
      | _ =>
          let uniqueValues := distinct sorted in
          if decide (length uniqueValues ≤ classCount) then
            Breaks (paddedBreaks classCount uniqueValues)
          else
            match jenksBreaks sorted classCount with
            | Some breaks => Breaks breaks
            | None => OutOfBounds
            end
      end
  end.

(** ** Features *)

(** The primitive values a GeoJSON property holds.  Nested objects and
    arrays, whose [Number(...)] goes through their own [toString], are left
    out. *)
Inductive jsval : Type :=
| JUndefined
| JNull
| JBool (b : bool)
| JNumber (x : num)
| JString (s : string).

(** A feature; [properties] is [None] when the member is missing or null. *)
Record feature : Type := Feature {
  properties : option (gmap string jsval)
}.

Definition valueKey : string := "有偶_相同性別_總計".
Definition levelKey : string := "pride_level".

Inductive completion : Type :=
| Normal
| TypeError.

Section Levels.
(** [Number(s)] of a string [s]: the grammar of numeric strings is not
    spelled out, every result below holds whatever it answers. *)
Variable StringToNumber : string → num.

(** [Number(v)] *)
Definition toNumber (v : jsval) : num :=
  match v with
  | JUndefined => NaN
  | JNull => Fin 0
  | JBool true => Fin 1
  | JBool false => Fin 0
  | JNumber x => x
  | JString s => StringToNumber s
  end.

(** [x || 0] of a number [x]: NaN and zero are falsy. *)
Definition orZero (x : num) : num :=
  match x with
  | NaN => Fin 0
  | Fin q => if Qeq_bool q 0 then Fin 0 else Fin q
  | _ => x
  end.

(** [feature?.properties?.[key]] *)
Definition getProperty (f : option feature) (key : string) : jsval :=
  match f with
  | Some (Feature (Some props)) => default JUndefined (props !! key)
  | _ => JUndefined
  end.

(** [Number(feature?.properties?.['有偶_相同性別_總計']) || 0] *)
Definition featureValue (f : option feature) : num :=
  orZero (toNumber (getProperty f valueKey)).

(** Lines 517-524: the first [i] with [breaks[i] <= value <= breaks[i + 1]]
    gives level [i + 1]; [i] is the index of the head of [breaks]. *)
Fixpoint scanLevel (value : num) (i : nat) (breaks : list Q) : nat :=
  match breaks with
  | lower :: ((upper :: _) as rest) =>
      if num_leb (Fin lower) value && num_leb value (Fin upper) then i + 1
      else scanLevel value (i + 1) rest
  | _ => 0
  end.

(** Lines 514-525. *)
Definition levelOf (f : option feature) (breaks : list Q) : nat :=
  let value := featureValue f in
  if num_ltb (Fin 0) value then scanLevel value 0 breaks else 0.

(** [{ ...props, pride_level: level }] *)
Definition withLevel (props : option (gmap string jsval)) (level : nat)
    : gmap string jsval :=
  <[levelKey := JNumber (Fin (ofNat level))]> (default ∅ props).

(** Lines 513-530: [forEach] stops at the first member that is not an
    object, where [feature.properties = ...] raises. *)
Fixpoint assignEach (features : list (option feature)) (breaks : list Q)
    : list (option feature) * completion :=
  match features with
  | [] => ([], Normal)
  | None :: rest => (None :: rest, TypeError)
  | Some f :: rest =>
      let level := levelOf (Some f) breaks in
      let (rest', c) := assignEach rest breaks in
      (Some (Feature (Some (withLevel (properties f) level))) :: rest', c)
  end.

(** Lines 508-531; the result is the array after the call and the way the
    call ends.  [features] and [breaks] are arrays here, so the guard of
    line 509 is its test on [breaks.length]. *)
Definition assignLevelsToFeatures (features : list (option feature))
    (breaks : list Q) : list (option feature) * completion :=
  if decide (length breaks < 2) then (features, Normal)
  else assignEach features breaks.

(** The own member [key] of [feature.properties], if there is one. *)
Definition ownProperty (f : option feature) (key : string) : option jsval :=
  match f with
  | Some (Feature (Some props)) => props !! key
  | _ => None
  end.

(** The level a feature carries: its [pride_level] member. *)
Definition storedLevel (f : option feature) : option jsval :=
  ownProperty f levelKey.

(** ** ensureHexData2Levels *)

Definition prideColors : list string :=
  ["#750787"; "#004DFF"; "#008026"; "#FFED00"; "#FF8C00"; "#E40303"].

(** [Math.min(...values)] and [Math.max(...values)] of [v :: vs]. *)
Definition arrayMin (v : Q) (vs : list Q) : Q := fold_left Qmin vs v.
Definition arrayMax (v : Q) (vs : list Q) : Q := fold_left Qmax vs v.

(** Lines 554 and 559-565, with [classCount = prideColors.length]. *)
Definition fallbackBreaks (v : Q) (vs : list Q) : list num :=
  let classCount := length prideColors in
  let min := arrayMin v vs in
  let max := arrayMax v vs in
  let step := fl_div (fl_sub (Fin max) (Fin min)) (Fin (ofNat classCount)) in
  Fin min :: map (λ i, fl_add (Fin min) (fl_mul step (Fin (ofNat i))))
                 (upTo 1 classCount).

(** The breaks as finite numbers, when all of them are. *)
Definition finiteBreaks (breaks : list num) : option (list Q) :=
  mapM (λ x, match x with Fin q => Some q | _ => None end) breaks.

(** Lines 543-545. *)
Definition positiveValues (features : list (option feature)) : list Q :=
  filterFinite
    (filter (λ x, isFinite x && num_ltb (Fin 0) x = true)
            (map featureValue features)).

Record mapState : Type := MapState {
  hexData2 : option (list (option feature));
  hexData2Breaks : list Q
}.

(** How [ensureHexData2Levels] ends.  [Done s c]: it leaves the state [s],
    and [c] tells whether the loop of [assignLevelsToFeatures] raised.
    [Stopped]: [calculateNaturalBreaks] raised, and nothing was stored.
    [NotFinite]: the equal-interval branch made a break that is not a finite
    number, which the breaks of this model do not hold; no call takes that
    branch. *)
Inductive ensured : Type :=
| Done (s : mapState) (c : completion)
| Stopped
| NotFinite.

(** Lines 536-574. *)
Definition ensureHexData2Levels (s : mapState) : ensured :=
  match hexData2 s with
  | None => Done s Normal
  | Some features =>
      match positiveValues features with
      | [] =>
          let (fs, c) := assignLevelsToFeatures features [] in
          Done (MapState (Some fs) []) c
      | v :: vs =>
          let classCount := length prideColors in
          match calculateNaturalBreaks (map Fin (v :: vs)) classCount with
          | Null =>
              match finiteBreaks (fallbackBreaks v vs) with
              | Some breaks =>
                  let (fs, c) := assignLevelsToFeatures features breaks in
                  Done (MapState (Some fs) breaks) c
              | None => NotFinite
              end
          | Breaks breaks =>
              let (fs, c) := assignLevelsToFeatures features breaks in
              Done (MapState (Some fs) breaks) c
          | OutOfBounds => Stopped
          end
      end
  end.
End Levels.

(** ** Vocabulary of the statements *)

(** An array of whole numbers. *)
Definition nums (l : list Z) : list num := map (λ z, Fin (inject_Z z)) l.

(** A feature whose only property is the classified attribute. *)
Definition featureWith (v : jsval) : option feature :=
  Some (Feature (Some {[ valueKey := v ]})).

Definition number (z : Z) : jsval := JNumber (Fin (inject_Z z)).

(** The double that the decimal literal of value [q] stands for ([q] is
    below the largest double wherever a statement uses it). *)
Definition literal (q : Q) : Q :=
  match round64 q with Fin r => r | _ => 0%Q end.

(** [breaks[i] <= breaks[i + 1]] for every [i]. *)
Definition nonDecreasing (breaks : list Q) : Prop :=
  ∀ i a b, breaks !! i = Some a → breaks !! S i = Some b → (a <= b)%Q.

(** [value] lies in the interval [i] of [breaks]. *)
Definition inInterval (value : num) (breaks : list Q) (i : nat) : Prop :=
  ∃ lower upper, breaks !! i = Some lower ∧ breaks !! S i = Some upper ∧
    num_leb (Fin lower) value = true ∧ num_leb value (Fin upper) = true.

(** A table of [rows] rows, each of [cols] entries. *)
Definition shape {A} (rows cols : nat) (t : list (list A)) : Prop :=
  length t = rows ∧ Forall (λ row, length row = cols) t.

(** ** Invariants of the dynamic programme *)

(** Both tables have [n + 1] rows of [classCount + 1] entries and both
    prefix arrays [n + 1] entries, [n] being the number of values. *)
Definition shapes (n classCount : nat) (t : tables) : Prop :=
  shape (n + 1) (classCount + 1) (lowerClassLimits t) ∧
  shape (n + 1) (classCount + 1) (varianceCombinations t) ∧
  length (sum t) = n + 1 ∧
  length (sumSquares t) = n + 1.

(** Every limit of the table is at most the number of values it is a limit
    of, so that [sorted[idx - 1]] is a value whenever [idx] is not 0. *)
Definition limitsOk (n classCount : nat) (lcl : list (list nat)) : Prop :=
  ∀ c k, c ≤ classCount → k ≤ n →
    ∃ idx, get2 lcl k c = Some idx ∧ idx ≤ k.

(** The limit of [k] values in [c] classes is not 0: the search of lines
    455-477 starts from [c - 1]. *)
Definition limitSet (lcl : list (list nat)) (c k : nat) : Prop :=
  ∃ idx, get2 lcl k c = Some idx ∧ 1 ≤ idx.

(** The walk back of lines 487-492 meets the limit 0 with classes left:
    its next round reads [lowerClassLimits[-1][count]]. *)
Fixpoint walkFails (lcl : list (list nat)) (count k : nat) : bool :=
  match count with
  | 0 => false
  | S count' =>
      match get2 lcl k count with
      | Some 0 => match count' with 0 => false | S _ => true end
      | Some (S below) => walkFails lcl count' below
      | None => false
      end
  end.

(** ** loadHexData2, once the response is parsed *)

Module Stats.
(** [hexData2Stats.value]: [min] and [max] are [null] until data is loaded. *)
Record t : Type := Make {
  min : jsval;
  max : jsval;
  positiveCount : nat
}.
End Stats.

(** [x - y] where the code uses the sign of the difference only (the
    comparator of a sort) or subtracts 1 from a level from 1 to 5: the exact
    difference, which is the difference of the doubles in the second case
    and has its sign in the first. *)
Definition num_sub (x y : num) : num :=
  match x, y with
  | NaN, _ | _, NaN => NaN
  | PInf, PInf | NInf, NInf => NaN
  | PInf, _ | _, NInf => PInf
  | NInf, _ | _, PInf => NInf
  | Fin a, Fin b => Fin (a - b)
  end.

(** [Math.max(x, y)] and [Math.min(x, y)] *)
Definition Math_max (x y : num) : num :=
  match x, y with
  | NaN, _ | _, NaN => NaN
  | PInf, _ | _, PInf => PInf
  | NInf, z | z, NInf => z
  | Fin a, Fin b => Fin (Qmax a b)
  end.

Definition Math_min (x y : num) : num :=
  match x, y with
  | NaN, _ | _, NaN => NaN
  | NInf, _ | _, NInf => NInf
  | PInf, z | z, PInf => z
  | Fin a, Fin b => Fin (Qmin a b)
  end.

Section Rendering.
Variable StringToNumber : string → num.

(** Lines 375-385: the statistics over the finite positive values. *)
Definition hexData2StatsOf (features : list (option feature)) : Stats.t :=
  match positiveValues StringToNumber features with
  | [] => Stats.Make (JNumber (Fin 0)) (JNumber (Fin 0)) 0
  | v :: vs =>
      Stats.Make (JNumber (Fin (arrayMin v vs))) (JNumber (Fin (arrayMax v vs)))
                 (length (v :: vs))
  end.

(** Lines 372-392.  [parsed] is [hexData2.value.features] when the parsed
    response is an object whose [features] is an array, and [None] otherwise;
    the result is the new statistics and what [ensureHexData2Levels] leaves. *)
Definition loadHexData2 (parsed : option (list (option feature))) (s : mapState)
    : Stats.t * ensured :=
  let features := default [] parsed in
  (hexData2StatsOf features,
   ensureHexData2Levels StringToNumber (MapState parsed (hexData2Breaks s))).

(** [const { min, max } = hexData2Stats.value || {}] *)
Definition statsMin (stats : option Stats.t) : jsval :=
  match stats with Some s => Stats.min s | None => JUndefined end.

Definition statsMax (stats : option Stats.t) : jsval :=
  match stats with Some s => Stats.max s | None => JUndefined end.

(** Lines 3039 and 3142: [Number.isFinite(min) && min > 0 ? min : 0]. *)
Definition domainMin (stats : option Stats.t) : Q :=
  match statsMin stats with
  | JNumber (Fin q) => if Qltb 0 q then q else 0
  | _ => 0
  end.

(** Lines 3040 and 3143. *)
Definition domainMax (stats : option Stats.t) : Q :=
  let domainMin := domainMin stats in
  match statsMax stats with
  | JNumber (Fin q) =>
      if Qltb 0 q then q else if Qltb 0 domainMin then domainMin else 1
  | _ => if Qltb 0 domainMin then domainMin else 1
  end.

(** [Math.min(hi, Math.max(lo, getValue(d)))] *)
Definition clampedValue (lo hi : Q) (f : option feature) : num :=
  Math_min (Fin hi) (Math_max (Fin lo) (featureValue StringToNumber f)).

(** Lines 3043 and 3146: the features drawn. *)
Definition validFeatures (features : list (option feature)) : list (option feature) :=
  filter (λ f, num_ltb (Fin 0) (featureValue StringToNumber f) = true) features.

(** Lines 3051 and 3154, [[...validFeatures].sort((a, b) => getValue(a) -
    getValue(b))]: a member moves behind another one only when the
    difference of their values is above zero, which is a stable sort. *)
Fixpoint insertByValue (x : option feature) (l : list (option feature))
    : list (option feature) :=
  match l with
  | [] => [x]
  | y :: rest =>
      if num_ltb (Fin 0)
           (num_sub (featureValue StringToNumber x) (featureValue StringToNumber y))
      then y :: insertByValue x rest
      else x :: y :: rest
  end.

Fixpoint sortByValue (l : list (option feature)) : list (option feature) :=
  match l with
  | [] => []
  | x :: rest => insertByValue x (sortByValue rest)
  end.

Definition sortedHexes (features : list (option feature)) : list (option feature) :=
  sortByValue (validFeatures features).

End Rendering.

(** ** The first data set: levels 1 to 5 *)

(** [!!v]: which values count as true. *)
Definition truthy (v : jsval) : bool :=
  match v with
  | JUndefined | JNull => false
  | JBool b => b
  | JNumber (Fin q) => negb (Qeq_bool q 0)
  | JNumber NaN => false
  | JNumber _ => true
  | JString s => negb (String.eqb s "")
  end.

(** The array index a number names: a whole number that is not negative.
    Any other number names no element ([a[1.5]] is [undefined]). *)
Definition asIndex (x : num) : option nat :=
  match x with
  | Fin q =>
      let r := Qred q in
      if (Qden r =? 1)%positive && (0 <=? Qnum r)%Z then Some (Z.to_nat (Qnum r))
      else None
  | _ => None
  end.

Module HexGrid.
Section HexGrid.
Variable StringToNumber : string → num.

(** Lines 741-750 and 2700-2709 of [drawHexGridOnly] and [drawHexGrid]: the
    test of the filter on one feature; [None] when [d.properties] is missing,
    where reading a property of it raises [TypeError]. *)
Definition isValid (d : option feature) : option bool :=
  match d with
  | Some (Feature (Some props)) =>
      let population := default JUndefined (props !! "人口數") in
      let ratio := default JUndefined (props !! "ratio_China") in
      let level := default JUndefined (props !! "level") in
      Some (truthy population &&
            num_ltb (Fin 0) (toNumber StringToNumber population) &&
            truthy ratio &&
            num_ltb (Fin 0) (toNumber StringToNumber ratio) &&
            truthy level &&
            num_leb (Fin 1) (toNumber StringToNumber level) &&
            num_leb (toNumber StringToNumber level) (Fin 5))
  | _ => None
  end.

(** [hexData.value.features.filter(...)]; [None] when a test raises. *)
Fixpoint validFeatures (features : list (option feature))
    : option (list (option feature)) :=
  match features with
  | [] => Some []
  | d :: rest =>
      match isValid d, validFeatures rest with
      | Some true, Some rest' => Some (d :: rest')
      | Some false, Some rest' => Some rest'
      | _, _ => None
      end
  end.

Definition colors : list string :=
  ["#f9d5d3"; "#f4a9a3"; "#ee6c5e"; "#de2910"; "#a51f0c"].

(** Lines 767-770 and 2726-2729; [None] is [undefined]. *)
Definition getColor (level : jsval) : option string :=
  if negb (truthy level) ||
     num_ltb (toNumber StringToNumber level) (Fin 1) ||
     num_ltb (Fin 5) (toNumber StringToNumber level)
  then Some "#f0f0f0"
  else
    index ← asIndex (num_sub (toNumber StringToNumber level) (Fin 1));
    colors !! index.

(** Lines 773-779 and 2732-2738: [classCounts[level - 1]++] for every level
    from 1 to 5.  An index that is no whole number adds a property to the
    array object and leaves its elements as they are.  A whole index is at
    most 4 here, so it lies inside the five counts [classCounts] starts
    from; the branch for an index past the end is there for shorter lists
    only, which the source never passes. *)
Definition countLevel (d : option feature) (classCounts : list nat)
    : option (list nat) :=
  match d with
  | Some (Feature (Some props)) =>
      let level := default JUndefined (props !! "level") in
      if num_leb (Fin 1) (toNumber StringToNumber level) &&
         num_leb (toNumber StringToNumber level) (Fin 5)
      then
        match asIndex (num_sub (toNumber StringToNumber level) (Fin 1)) with
        | Some index =>
            match classCounts !! index with
            | Some count => Some (<[index := count + 1]> classCounts)
            | None => Some classCounts
            end
        | None => Some classCounts
        end
      else Some classCounts
  | _ => None
  end.

Fixpoint countLevels (valid : list (option feature)) (classCounts : list nat)
    : option (list nat) :=
  match valid with
  | [] => Some classCounts
  | d :: rest => counts ← countLevel d classCounts; countLevels rest counts
  end.

Definition classCounts (valid : list (option feature)) : option (list nat) :=
  countLevels valid (replicate (length colors) 0).
End HexGrid.
End HexGrid.

Module GridOnly.
(** What reading [table[key]] gives for a table written as an object
    literal: an entry of the literal, a member the literal inherits from
    [Object.prototype], or [undefined]. *)
Inductive read (A : Type) : Type :=
| Entry (a : A)
| Inherited (name : string)
| Undefined.
Arguments Entry {A} a.
Arguments Inherited {A} name.
Arguments Undefined {A}.

(** The names [Object.prototype] answers.  Each of its members is a function
    or an object, so it is truthy and is no entry of a table. *)
Definition objectPrototype : list string :=
  ["constructor"; "hasOwnProperty"; "isPrototypeOf"; "propertyIsEnumerable";
   "toLocaleString"; "toString"; "valueOf"; "__proto__";
   "__defineGetter__"; "__defineSetter__"; "__lookupGetter__"; "__lookupSetter__"].

(** The table [{0: ..., 1: ..., ...}] of [drawGridOnly], by key. *)
Definition levelColors : list string :=
  ["#e0e0e0"; "#1a237e"; "#4caf50"; "#fbc02d"; "#ff6f00"; "#d32f2f"].

Definition opacityMap : list Q :=
  [1 # 2; 7 # 10; 3 # 4; 4 # 5; 17 # 20; 9 # 10].

(** The key of one of these tables that [key] names, if any: a whole number
    [k] names the key "k", a string names itself, [true] and [false] name
    "true" and "false", which are no keys. *)
Definition levelSlot (key : jsval) : option nat :=
  match key with
  | JNumber x => asIndex x
  | JString s =>
      fst <$> list_find (λ k, k = s) ["0"; "1"; "2"; "3"; "4"; "5"]
  | _ => None
  end.

(** [table[key]]: the own keys first, then the prototype. *)
Definition readKey {A} (table : list A) (key : jsval) : read A :=
  match levelSlot key ≫= (table !!.) with
  | Some a => Entry a
  | None =>
      match key with
      | JString name =>
          if bool_decide (name ∈ objectPrototype) then Inherited name else Undefined
      | _ => Undefined
      end
  end.

(** [a || b], where [truthyEntry] tells which entries are truthy. *)
Definition orElse {A} (truthyEntry : A → bool) (a b : read A) : read A :=
  match a with
  | Entry x => if truthyEntry x then a else b
  | Inherited _ => a
  | Undefined => b
  end.

Definition nonEmpty (s : string) : bool := negb (String.eqb s "").
Definition nonZero (q : Q) : bool := negb (Qeq_bool q 0).

(** Lines 899-904. *)
Definition getColorByLevel (level : jsval) : read string :=
  let zeroOrNullish :=
    match level with
    | JNumber (Fin q) => Qeq_bool q 0
    | JNull | JUndefined => true
    | _ => false
    end in
  if zeroOrNullish then readKey levelColors (number 0)
  else orElse nonEmpty (readKey levelColors level) (readKey levelColors (number 1)).

(** Lines 907-918. *)
Definition getOpacityByLevel (level : jsval) : read Q :=
  let levelNum := if truthy level then level else number 0 in
  orElse nonZero (readKey opacityMap levelNum) (readKey opacityMap (number 0)).

End GridOnly.

(** * Sample inputs *)

(** Three hexagons with the values 3, 0 and 7. *)
Definition threeHexagons : list (option feature) :=
  [featureWith (number 3); featureWith (number 0); featureWith (number 7)].

(** A hexagon of the first data set, of level 3. *)
Definition levelThree : gmap string jsval :=
  <["level" := number 3]>
    (<["ratio_China" := JNumber (Fin (1 # 2))]> {[ "人口數" := number 10 ]}).

(** * Facts about numbers *)

Lemma Qltb_lt x y : Qltb x y = true ↔ (x < y)%Q.
Proof.
  unfold Qltb. rewrite negb_true_iff, <- not_true_iff_false, Qle_bool_iff.
  split; [apply Qnot_le_lt | apply Qlt_not_le].
Qed.

Lemma Qltb_ge x y : Qltb x y = false ↔ (y <= x)%Q.
Proof. unfold Qltb. rewrite negb_false_iff. apply Qle_bool_iff. Qed.

Lemma num_leb_Fin a b : num_leb (Fin a) (Fin b) = true ↔ (a <= b)%Q.
Proof. apply Qle_bool_iff. Qed.

Lemma num_ltb_Fin a b : num_ltb (Fin a) (Fin b) = true ↔ (a < b)%Q.
Proof. apply Qltb_lt. Qed.

(** * Level assignment *)

Section LevelFacts.
Variable StringToNumber : string → num.

Abbreviation levelOf := (levelOf StringToNumber).
Abbreviation featureValue := (featureValue StringToNumber).
Abbreviation assignEach := (assignEach StringToNumber).
Abbreviation assignLevelsToFeatures := (assignLevelsToFeatures StringToNumber).

Lemma orZero_not_positive x :
  num_ltb (Fin 0) x = false → num_ltb (Fin 0) (orZero x) = false.
Proof.
  destruct x as [q| | |]; simpl; try done.
  destruct (Qeq_bool q 0); done.
Qed.

Lemma scanLevel_cons value k lower upper rest :
  scanLevel value k (lower :: upper :: rest) =
  if num_leb (Fin lower) value && num_leb value (Fin upper) then k + 1
  else scanLevel value (k + 1) (upper :: rest).
Proof. reflexivity. Qed.

(** The scan answers [k + j + 1] at the first interval [j] that holds the
    value, [k] being the index of the head of the list. *)
Lemma scanLevel_first value breaks : ∀ j k,
  inInterval value breaks j →
  (∀ i, i < j → ¬ inInterval value breaks i) →
  scanLevel value k breaks = k + j + 1.
Proof.
  induction breaks as [|lower rest IH]; intros j k Hin Hbefore.
  - destruct Hin as (? & ? & H & _). done.
  - destruct rest as [|upper rest'].
    + destruct Hin as (? & ? & _ & H & _). done.
    + rewrite scanLevel_cons.
      destruct (num_leb (Fin lower) value && num_leb value (Fin upper)) eqn:Hhere.
      * destruct j as [|j]; [lia|].
        exfalso. apply (Hbefore 0); [lia|].
        apply andb_true_iff in Hhere as [? ?]. by exists lower, upper.
      * destruct j as [|j].
        { destruct Hin as (lo & up & Hlo & Hup & H1 & H2).
          simpl in Hlo, Hup. simplify_eq. rewrite H1, H2 in Hhere. done. }
        rewrite (IH j (k + 1)); [lia| |].
        { destruct Hin as (lo & up & Hlo & Hup & H1 & H2). by exists lo, up. }
        intros i Hi (lo & up & Hlo & Hup & H1 & H2).
        apply (Hbefore (S i)); [lia|]. by exists lo, up.
Qed.



Lemma levelOf_not_positive f breaks :
  num_ltb (Fin 0) (featureValue f) = false → levelOf f breaks = 0.
Proof. intros H. unfold levelOf. by rewrite H. Qed.

Lemma featureValue_withLevel props level :
  featureValue (Some (Feature (Some (withLevel props level)))) =
  featureValue (Some (Feature props)).
Proof.
  unfold featureValue, getProperty, withLevel.
  rewrite lookup_insert_ne by done.
  destruct props as [props|]; simpl; [done|]. by rewrite lookup_empty.
Qed.

Lemma levelOf_withLevel props level breaks :
  levelOf (Some (Feature (Some (withLevel props level)))) breaks =
  levelOf (Some (Feature props)) breaks.
Proof. unfold levelOf. by rewrite featureValue_withLevel. Qed.

Lemma withLevel_again props level :
  withLevel (Some (withLevel props level)) level = withLevel props level.
Proof. unfold withLevel. simpl. apply insert_insert_eq. Qed.

Lemma assignEach_again features breaks :
  assignEach (assignEach features breaks).1 breaks = assignEach features breaks.
Proof.
  induction features as [|[[props]|] rest IH]; [done| |done].
  simpl. destruct (assignEach rest breaks) as [rest' c] eqn:Hrest.
  simpl in *. rewrite IH.
  by rewrite levelOf_withLevel, withLevel_again.
Qed.

Lemma assignEach_lookup features breaks : ∀ i f,
  features !! i = Some f →
  ∃ f', (assignEach features breaks).1 !! i = Some f' ∧
    ∀ key, key ≠ levelKey → ownProperty f' key = ownProperty f key.
Proof.
  induction features as [|[[props]|] rest IH]; intros i f Hi; [done| |by eauto].
  simpl. destruct (assignEach rest breaks) as [rest' c] eqn:Hrest.
  destruct i as [|i]; simpl in *.
  - simplify_eq. eexists; split; [done|].
    intros key Hkey. unfold ownProperty, withLevel.
    rewrite lookup_insert_ne by done.
    destruct props as [props|]; simpl; [done|]. by rewrite lookup_empty.
  - by apply IH.
Qed.

Lemma assignEach_objects features breaks : ∀ i f,
  Forall is_Some features →
  features !! i = Some (Some f) →
  (assignEach features breaks).1 !! i =
    Some (Some (Feature (Some (withLevel (properties f) (levelOf (Some f) breaks))))).
Proof.
  induction features as [|[g|] rest IH]; intros i f Hall Hi; [done| |].
  - apply Forall_cons in Hall as [_ Hall]. simpl.
    destruct (assignEach rest breaks) as [rest' c] eqn:Hrest.
    destruct i as [|i]; simpl in *; [by simplify_eq|]. by apply IH.
  - apply Forall_cons in Hall as [[? ?] _]. done.
Qed.

(** X10.  When the breaks have two entries or more and every member of the
    array is an object, a feature whose attribute is missing, is not numeric
    or coerces to a number that is not above zero gets [pride_level] 0. *)
Theorem level_zero_when_not_positive features breaks i f :
  2 ≤ length breaks →
  Forall is_Some features →
  features !! i = Some (Some f) →
  num_ltb (Fin 0) (toNumber StringToNumber (getProperty (Some f) valueKey)) = false →
  ∃ f', (assignLevelsToFeatures features breaks).1 !! i = Some f' ∧
    storedLevel f' = Some (JNumber (Fin 0)).
Proof.
  intros Hlen Hall Hi Hv. unfold assignLevelsToFeatures.
  destruct (decide (length breaks < 2)); [lia|].
  rewrite (assignEach_objects features breaks i f Hall Hi).
  eexists; split; [done|].
  rewrite levelOf_not_positive by (by apply orZero_not_positive).
  unfold storedLevel, ownProperty, withLevel. by rewrite lookup_insert_eq.
Qed.

(** C9.  Level assignment is idempotent: a second run of
    [assignLevelsToFeatures] with the same breaks on the features the first
    run left behind changes nothing, neither the features (so every
    [pride_level] is the one of the first run) nor the way the call ends. *)
Theorem assignLevels_idempotent features breaks :
  assignLevelsToFeatures (assignLevelsToFeatures features breaks).1 breaks =
  assignLevelsToFeatures features breaks.
Proof.
  unfold assignLevelsToFeatures.
  destruct (decide (length breaks < 2)); [done|].
  apply assignEach_again.
Qed.

(** C10.  [assignLevelsToFeatures] leaves every property other than
    [pride_level] as it was: the member at any index of the array has, for
    every other key, the own property it had before the call. *)
Theorem assignLevels_frame features breaks i f key :
  key ≠ levelKey →
  features !! i = Some f →
  ∃ f', (assignLevelsToFeatures features breaks).1 !! i = Some f' ∧
    ownProperty f' key = ownProperty f key.
Proof.
  intros Hkey Hi. unfold assignLevelsToFeatures.
  destruct (decide (length breaks < 2)); [by eauto|].
  destruct (assignEach_lookup features breaks i f Hi) as (f' & Hf' & Hsame).
  exists f'. split; [done|]. by apply Hsame.
Qed.


End LevelFacts.





Lemma assignLevels_frame_witness :
  ∃ f', (assignLevelsToFeatures (λ _, NaN) [featureWith (number 5)]
           [1%Q; 5%Q; 9%Q]).1 !! 0 = Some f' ∧
    ownProperty f' valueKey = ownProperty (featureWith (number 5)) valueKey.
Proof.
  apply (assignLevels_frame (λ _, NaN) [featureWith (number 5)] [1%Q; 5%Q; 9%Q]
           0 (featureWith (number 5)) valueKey).
  - discriminate.
  - reflexivity.
Defined.

(** C8, on the code.  When no feature has a positive value,
    [ensureHexData2Levels] calls [assignLevelsToFeatures(features, [])] at
    line 550, and the guard of line 509 returns before the loop: nothing is
    assigned, whatever the features are.  A feature of value 0 and a feature
    without the attribute are left without [pride_level], where the claim
    gives them level 0. *)
Theorem level_zero_not_assigned (StringToNumber : string → num) old :
  (∀ features,
     assignLevelsToFeatures StringToNumber features [] = (features, Normal)) ∧
  ensureHexData2Levels StringToNumber
    (MapState (Some [featureWith (number 0); Some (Feature (Some ∅))]) old) =
    Done (MapState (Some [featureWith (number 0); Some (Feature (Some ∅))]) []) Normal ∧
  storedLevel (featureWith (number 0)) = None ∧
  storedLevel (Some (Feature (Some ∅))) = None.
Proof.
  split_and!.
  - done.
  - by vm_compute.
  - by vm_compute.
  - by vm_compute.
Qed.

Lemma level_zero_when_not_positive_witness :
  ∃ f', (assignLevelsToFeatures (λ _, NaN) [featureWith JNull] [1%Q; 5%Q]).1 !! 0 = Some f' ∧
    storedLevel f' = Some (JNumber (Fin 0)).
Proof.
  apply (level_zero_when_not_positive (λ _, NaN) [featureWith JNull] [1%Q; 5%Q] 0
           (Feature (Some {[ valueKey := JNull ]}))).
  - simpl. lia.
  - repeat constructor. by eexists.
  - reflexivity.
  - reflexivity.
Defined.

(** What [ensureHexData2Levels] does when no feature has a positive value:
    the breaks become empty and the features stay as they were. *)
Lemma ensureHexData2Levels_no_positive (StringToNumber : string → num) :
  ensureHexData2Levels StringToNumber (MapState (Some [featureWith (number 0)]) [1%Q]) =
    Done (MapState (Some [featureWith (number 0)]) []) Normal ∧
  storedLevel (featureWith (number 0)) = None.
Proof. split; reflexivity. Qed.

(** * calculateNaturalBreaks: no finite value *)

Lemma filterFinite_none values :
  Forall (λ x, isFinite x = false) values → filterFinite values = [].
Proof.
  induction 1 as [|x rest Hx _ IH]; [done|].
  destruct x; simpl in *; done.
Qed.

(** C6.  On an array with no finite member, the empty array among them,
    [calculateNaturalBreaks] returns [null] for every [classCount]; the
    computation reaches neither table nor loop. *)
Theorem calculateNaturalBreaks_null values classCount :
  Forall (λ x, isFinite x = false) values →
  calculateNaturalBreaks values classCount = Null.
Proof.
  intros H. unfold calculateNaturalBreaks.
  rewrite (filterFinite_none values H). by destruct values.
Qed.

Lemma calculateNaturalBreaks_null_witness :
  calculateNaturalBreaks [] 6 = Null ∧ calculateNaturalBreaks [NaN; PInf; NInf] 6 = Null.
Proof.
  split.
  - apply (calculateNaturalBreaks_null [] 6). constructor.
  - apply (calculateNaturalBreaks_null [NaN; PInf; NInf] 6).
    repeat constructor.
Defined.

(** * The equal-interval fallback *)

Lemma fold_Qmin_le vs : ∀ a, (fold_left Qmin vs a <= a)%Q.
Proof.
  induction vs as [|x vs IH]; intros a; simpl; [apply Qle_refl|].
  eapply Qle_trans; [apply IH | apply Q.le_min_l].
Qed.

Lemma fold_Qmax_ge vs : ∀ a, (a <= fold_left Qmax vs a)%Q.
Proof.
  induction vs as [|x vs IH]; intros a; simpl; [apply Qle_refl|].
  eapply Qle_trans; [apply Q.le_max_l | apply IH].
Qed.

Lemma arrayMin_le_arrayMax v vs : (arrayMin v vs <= arrayMax v vs)%Q.
Proof.
  eapply Qle_trans; [apply fold_Qmin_le | apply fold_Qmax_ge].
Qed.

Lemma ofNat_S i : (ofNat (S i) == ofNat i + 1)%Q.
Proof.
  unfold ofNat. rewrite Nat2Z.inj_succ, <- Z.add_1_r, inject_Z_plus. reflexivity.
Qed.

Lemma ofNat_pos i : 0 < i → (0 < ofNat i)%Q.
Proof.
  intros Hi. unfold ofNat. replace 0%Q with (inject_Z 0) by done.
  rewrite <- Zlt_Qlt. lia.
Qed.

Lemma upTo_lookup lo hi i :
  lo + i ≤ hi → upTo lo hi !! i = Some (lo + i).
Proof. intros H. unfold upTo. apply lookup_seq. lia. Qed.

Lemma upTo_length lo hi : length (upTo lo hi) = S hi - lo.
Proof. unfold upTo. apply length_seq. Qed.


(** * Sorting and distinct values *)

Lemma insertSorted_perm x l : insertSorted x l ≡ₚ x :: l.
Proof.
  induction l as [|y rest IH]; simpl; [done|].
  destruct (Qle_bool x y); [done|].
  rewrite IH. apply perm_swap.
Qed.

Lemma sortAscending_perm l : sortAscending l ≡ₚ l.
Proof.
  induction l as [|x rest IH]; simpl; [done|].
  by rewrite insertSorted_perm, IH.
Qed.

Lemma insertSorted_sorted x l :
  StronglySorted Qle l → StronglySorted Qle (insertSorted x l).
Proof.
  induction 1 as [|y rest Hrest IH Hy]; simpl.
  - repeat constructor.
  - destruct (Qle_bool x y) eqn:Hxy.
    + apply Qle_bool_iff in Hxy. constructor; [by constructor|].
      constructor; [done|].
      eapply Forall_impl; [exact Hy|]. intros z Hz. by eapply Qle_trans.
    + constructor; [done|]. rewrite insertSorted_perm. constructor; [|done].
      apply Qlt_le_weak, Qltb_lt. unfold Qltb. by rewrite Hxy.
Qed.

Lemma sortAscending_sorted l : StronglySorted Qle (sortAscending l).
Proof.
  induction l as [|x rest IH]; simpl; [constructor|].
  by apply insertSorted_sorted.
Qed.

Lemma sortAscending_elem l x : x ∈ sortAscending l ↔ x ∈ l.
Proof. by rewrite sortAscending_perm. Qed.

Lemma sorted_le_last l top :
  StronglySorted Qle l → last l = Some top → ∀ y, y ∈ l → (y <= top)%Q.
Proof.
  intros Hsorted Hlast y Hy. apply last_Some in Hlast as [l' ->].
  apply elem_of_app in Hy as [Hy|Hy].
  - eapply (StronglySorted_app_1_elem_of Qle); [done..|]. by left.
  - apply list_elem_of_singleton in Hy as ->. apply Qle_refl.
Qed.

Lemma sorted_head_le x l :
  StronglySorted Qle (x :: l) → ∀ y, y ∈ x :: l → (x <= y)%Q.
Proof.
  intros [Hall _]%StronglySorted_cons y Hy.
  apply elem_of_cons in Hy as [->|Hy]; [apply Qle_refl|].
  by eapply Forall_forall in Hall.
Qed.

Lemma sorted_nonDecreasing l : StronglySorted Qle l → nonDecreasing l.
Proof.
  induction 1 as [|x rest Hrest IH Hx]; intros i a b Ha Hb; [done|].
  destruct i as [|i]; simpl in *.
  - simplify_eq. eapply Forall_forall in Hx; [done|].
    by eapply list_elem_of_lookup_2.
  - by eapply IH.
Qed.

Lemma strictly_sorted_le l : StronglySorted Qlt l → StronglySorted Qle l.
Proof.
  induction 1 as [|x rest Hrest IH Hx]; constructor; [done|].
  eapply Forall_impl; [done|]. intros y. apply Qlt_le_weak.
Qed.

Lemma existsb_Qeq x seen :
  existsb (Qeq_bool x) seen = true ↔ ∃ s, s ∈ seen ∧ (x == s)%Q.
Proof.
  rewrite existsb_exists. split; intros (s & Hs & Heq); exists s.
  - split; [by apply list_elem_of_In | by apply Qeq_bool_iff].
  - split; [by apply list_elem_of_In | by apply Qeq_bool_iff].
Qed.

Lemma distinctFrom_elem l : ∀ seen y,
  y ∈ distinctFrom seen l → y ∈ l ∧ ∀ s, s ∈ seen → ¬ (y == s)%Q.
Proof.
  induction l as [|x rest IH]; intros seen y Hy; simpl in Hy.
  - by apply elem_of_nil in Hy.
  - destruct (existsb (Qeq_bool x) seen) eqn:Hseen.
    + destruct (IH _ _ Hy) as [? ?]. split; [by right|done].
    + apply elem_of_cons in Hy as [->|Hy].
      * split; [by left|]. intros s Hs Heq.
        apply not_true_iff_false in Hseen. apply Hseen, existsb_Qeq. eauto.
      * destruct (IH _ _ Hy) as [? Hnot]. split; [by right|].
        intros s Hs. apply Hnot. by right.
Qed.

Lemma distinctFrom_covers l : ∀ seen x,
  x ∈ l →
  (∃ s, s ∈ seen ∧ (x == s)%Q) ∨ (∃ y, y ∈ distinctFrom seen l ∧ (x == y)%Q).
Proof.
  induction l as [|z rest IH]; intros seen x Hx; [by apply elem_of_nil in Hx|].
  simpl. destruct (existsb (Qeq_bool z) seen) eqn:Hseen.
  - apply elem_of_cons in Hx as [->|Hx]; [left; by apply existsb_Qeq|].
    by apply IH.
  - apply elem_of_cons in Hx as [->|Hx].
    + right. exists z. split; [by left | apply Qeq_refl].
    + destruct (IH (z :: seen) x Hx) as [(s & Hs & Heq)|(y & Hy & Heq)].
      * apply elem_of_cons in Hs as [->|Hs]; [|left; eauto].
        right. exists z. split; [by left|done].
      * right. exists y. split; [by right|done].
Qed.

Lemma distinctFrom_sorted l : ∀ seen,
  StronglySorted Qle l → StronglySorted Qlt (distinctFrom seen l).
Proof.
  induction l as [|x rest IH]; intros seen Hsorted; simpl; [constructor|].
  apply StronglySorted_cons in Hsorted as [Hx Hrest].
  destruct (existsb (Qeq_bool x) seen); [by apply IH|].
  constructor; [by apply IH|].
  apply Forall_forall. intros y Hy.
  destruct (distinctFrom_elem _ _ _ Hy) as [Hin Hnot].
  eapply Forall_forall in Hx; [|done].
  apply Qle_lt_or_eq in Hx as [?|Heq]; [done|].
  exfalso. apply (Hnot x); [by left|]. by symmetry.
Qed.

Lemma distinctFrom_length l : ∀ seen, length (distinctFrom seen l) ≤ length l.
Proof.
  induction l as [|x rest IH]; intros seen; simpl; [done|].
  destruct (existsb (Qeq_bool x) seen); simpl; [|apply le_n_S]; eauto.
Qed.

Lemma distinct_elem l y : y ∈ distinct l → y ∈ l.
Proof. intros Hy. by apply distinctFrom_elem in Hy as [? _]. Qed.

Lemma distinct_covers l x : x ∈ l → ∃ y, y ∈ distinct l ∧ (x == y)%Q.
Proof.
  intros Hx. destruct (distinctFrom_covers l [] x Hx) as [(s & Hs & _)|?]; [|done].
  by apply elem_of_nil in Hs.
Qed.

Lemma paddedBreaks_top classCount u top :
  last u = Some top →
  paddedBreaks classCount u = u ++ replicate (S classCount - length u) top.
Proof. intros H. unfold paddedBreaks. by rewrite H. Qed.




(** C2, on the code.  For [1, 2, 3, 10, 11, 12, 50, 51, 52] and three
    classes [calculateNaturalBreaks] returns the first value of each class
    and the maximum, [1, 10, 50, 52], not [1, 3, 12, 52].  With the breaks it
    returns, the values 10 and 50, each the first of its class, fall into the
    class below: 10 gets level 1 and 50 gets level 2.  With [1, 3, 12, 52]
    the same scan would give the three groups the levels 1, 2 and 3. *)
Theorem natural_breaks_scenario (StringToNumber : string → num) :
  calculateNaturalBreaks (nums [1; 2; 3; 10; 11; 12; 50; 51; 52]%Z) 3 =
    Breaks [1; 10; 50; 52]%Q ∧
  map (λ z, levelOf StringToNumber (featureWith (number z)) [1; 10; 50; 52]%Q)
      [1; 2; 3; 10; 11; 12; 50; 51; 52]%Z =
    [1; 1; 1; 1; 2; 2; 2; 3; 3] ∧
  map (λ z, levelOf StringToNumber (featureWith (number z)) [1; 3; 12; 52]%Q)
      [1; 2; 3; 10; 11; 12; 50; 51; 52]%Z =
    [1; 1; 1; 2; 2; 2; 3; 3; 3].
Proof.
  split_and!.
  - by vm_compute.
  - by vm_compute.
  - by vm_compute.
Qed.

(** * Arrays and loops *)

Lemma newTable_shape {A} rows cols (zero : A) : shape rows cols (newTable rows cols zero).
Proof.
  split; [apply length_replicate|].
  apply Forall_forall. intros row ->%elem_of_replicate_inv. apply length_replicate.
Qed.

Lemma arr_set_Some {A} (a : list A) i x :
  i < length a → arr_set a i x = Some (<[i := x]> a).
Proof. intros H. unfold arr_set. by destruct (decide (i < length a)). Qed.

Lemma get2_is_Some {A} rows cols (t : list (list A)) i j :
  shape rows cols t → i < rows → j < cols → is_Some (get2 t i j).
Proof.
  intros [Hrows Hcols] Hi Hj. unfold get2.
  destruct (lookup_lt_is_Some_2 t i ltac:(lia)) as [row Hrow]. rewrite Hrow. simpl.
  apply lookup_lt_is_Some_2. eapply Forall_lookup in Hcols; [|done]. lia.
Qed.

Lemma set2_spec {A} rows cols (t : list (list A)) i j x :
  shape rows cols t → i < rows → j < cols →
  ∃ t', set2 t i j x = Some t' ∧ shape rows cols t' ∧ get2 t' i j = Some x ∧
    ∀ i' j', i' ≠ i ∨ j' ≠ j → get2 t' i' j' = get2 t i' j'.
Proof.
  intros [Hrows Hcols] Hi Hj. unfold set2.
  destruct (lookup_lt_is_Some_2 t i ltac:(lia)) as [row Hrow]. rewrite Hrow. simpl.
  assert (length row = cols) as Hlen by (by eapply Forall_lookup in Hcols).
  rewrite arr_set_Some by lia. simpl. rewrite arr_set_Some by lia.
  eexists; split; [done|]. repeat split.
  - by rewrite length_insert.
  - apply Forall_insert; [done|]. by rewrite length_insert.
  - unfold get2. rewrite list_lookup_insert_eq by lia. simpl.
    apply list_lookup_insert_eq. lia.
  - intros i' j' Hne. unfold get2.
    destruct (decide (i' = i)) as [->|Hi'].
    + rewrite list_lookup_insert_eq, Hrow by lia. simpl.
      apply list_lookup_insert_ne. destruct Hne; congruence.
    + by rewrite list_lookup_insert_ne.
Qed.

Lemma upTo_elem lo hi i : i ∈ upTo lo hi ↔ lo ≤ i ≤ hi.
Proof. unfold upTo. rewrite elem_of_seq. lia. Qed.

Lemma downTo_elem hi lo i : i ∈ downTo hi lo ↔ lo ≤ i ≤ hi.
Proof. unfold downTo. by rewrite elem_of_reverse, upTo_elem. Qed.

Lemma downTo_cons hi lo : lo ≤ hi → 0 < hi → downTo hi lo = hi :: downTo (hi - 1) lo.
Proof.
  intros Hle Hpos. unfold downTo, upTo.
  replace (S hi - lo) with (S (hi - lo)) by lia.
  rewrite seq_S, reverse_snoc.
  replace (lo + (hi - lo)) with hi by lia.
  by replace (S (hi - 1) - lo) with (hi - lo) by lia.
Qed.

(** A loop keeps an invariant that every round keeps. *)
Lemma forM_invariant {St} (I : St → Prop) body counters : ∀ s,
  I s →
  (∀ i s, i ∈ counters → I s → ∃ s', body i s = Some s' ∧ I s') →
  ∃ s', forM counters body s = Some s' ∧ I s'.
Proof.
  induction counters as [|i rest IH]; intros s Hs Hbody; simpl; [by eauto|].
  destruct (Hbody i s) as (s1 & -> & Hs1); [by left|done|]. simpl.
  apply IH; [done|]. intros j s2 Hj. apply Hbody. by right.
Qed.

(** An ascending loop: [I i] holds before the round of counter [i]. *)
Lemma forM_upTo {St} (I : nat → St → Prop) body lo hi s :
  lo ≤ hi + 1 →
  I lo s →
  (∀ i s, lo ≤ i ≤ hi → I i s → ∃ s', body i s = Some s' ∧ I (i + 1) s') →
  ∃ s', forM (upTo lo hi) body s = Some s' ∧ I (hi + 1) s'.
Proof.
  unfold upTo. intros Hle.
  remember (S hi - lo) as len eqn:Hlen.
  revert lo s Hle Hlen. induction len as [|len IH]; intros lo s Hle Hlen Hs Hbody; simpl.
  - exists s. split; [done|]. by replace (hi + 1) with lo by lia.
  - destruct (Hbody lo s) as (s1 & -> & Hs1); [lia|done|]. simpl.
    apply IH; [lia|lia| |].
    + by replace (S lo) with (lo + 1) by lia.
    + intros i s2 Hi. apply Hbody. lia.
Qed.

(** * The dynamic programme *)

Section JenksFacts.
Variable sorted : list Q.
Variable classCount : nat.
Hypothesis Hclasses : 1 ≤ classCount.
Hypothesis Hsize : classCount ≤ length sorted.

Local Abbreviation n := (length sorted).
Local Abbreviation filled :=
  (λ t, shapes n classCount t ∧ limitsOk n classCount (lowerClassLimits t)).

(** Writing a limit that is at most its row keeps the limits in range. *)
Lemma limitsOk_set lcl lcl' i j idx :
  limitsOk n classCount lcl →
  get2 lcl' i j = Some idx → idx ≤ i →
  (∀ i' j', i' ≠ i ∨ j' ≠ j → get2 lcl' i' j' = get2 lcl i' j') →
  limitsOk n classCount lcl'.
Proof.
  intros Hlimits Hnew Hidx Hframe c k Hc Hk.
  destruct (decide (k = i ∧ c = j)) as [[-> ->]|Hne].
  - by exists idx.
  - rewrite Hframe by lia. by apply Hlimits.
Qed.

Lemma initColumn_filled i t :
  1 ≤ i ≤ classCount → filled t →
  ∃ t', initColumn sorted i t = Some t' ∧ filled t'.
Proof.
  intros Hi ((Hlcl & Hvc & Hs & Hq) & Hlimits). unfold initColumn.
  destruct (set2_spec _ _ (lowerClassLimits t) 1 i 1 Hlcl)
    as (lcl & -> & Hlcl' & Hnew & Hframe); [lia..|]. simpl.
  destruct (set2_spec _ _ (varianceCombinations t) 1 i (Fin 0) Hvc) as (vc & -> & Hvc' & _);
    [lia..|]. simpl.
  destruct (forM_invariant (shape (n + 1) (classCount + 1))
              (λ j vc, set2 vc j i PInf) (upTo 2 n) vc Hvc') as (vc' & -> & Hvc'').
  { intros j vc0 Hj Hvc0. apply upTo_elem in Hj.
    destruct (set2_spec _ _ vc0 j i PInf Hvc0) as (vc1 & -> & ? & _); [lia..|]. eauto. }
  simpl. eexists; split; [done|]. split.
  - hnf; simpl. by split_and!.
  - simpl. by apply (limitsOk_set (lowerClassLimits t) lcl 1 i 1).
Qed.

Lemma prefixStep_filled i t :
  1 ≤ i ≤ n → filled t →
  ∃ t', prefixStep sorted i t = Some t' ∧ filled t'.
Proof.
  intros Hi ((Hlcl & Hvc & Hs & Hq) & Hlimits). unfold prefixStep, arr_get.
  destruct (lookup_lt_is_Some_2 sorted (i - 1) ltac:(lia)) as [val Hval].
  destruct (lookup_lt_is_Some_2 (sum t) (i - 1) ltac:(lia)) as [s0 Hs0].
  destruct (lookup_lt_is_Some_2 (sumSquares t) (i - 1) ltac:(lia)) as [q0 Hq0].
  rewrite Hval, Hs0. simpl. rewrite arr_set_Some by lia. simpl.
  rewrite Hq0. simpl. rewrite arr_set_Some by lia. simpl.
  rewrite !list_lookup_insert_eq by lia. simpl.
  match goal with
  | |- context [set2 (varianceCombinations t) i 1 ?x] =>
      destruct (set2_spec _ _ (varianceCombinations t) i 1 x Hvc)
        as (vc & -> & Hvc' & _); [lia..|]
  end. simpl.
  destruct (set2_spec _ _ (lowerClassLimits t) i 1 1 Hlcl)
    as (lcl & -> & Hlcl' & Hnew & Hframe); [lia..|]. simpl.
  eexists; split; [done|]. split.
  - hnf; simpl. rewrite !length_insert. by split_and!.
  - simpl. apply (limitsOk_set (lowerClassLimits t) lcl i 1 1); [done|done|lia|done].
Qed.

(** A candidate is weighed without leaving the tables, and the lower limit
    kept is [classes - 1], with which the loop starts, or a candidate. *)
Lemma candidateStep_runs c item i t best :
  2 ≤ c ≤ classCount → c ≤ i ≤ item → item ≤ n →
  shapes n classCount t → 1 ≤ snd best ≤ item →
  ∃ best', candidateStep t c item i best = Some best' ∧ 1 ≤ snd best' ≤ item.
Proof.
  intros Hc Hi Hitem (_ & Hvc & Hs & Hq) Hbest. unfold candidateStep, arr_get.
  destruct (lookup_lt_is_Some_2 (sum t) item ltac:(lia)) as [s1 ->].
  destruct (lookup_lt_is_Some_2 (sum t) (i - 1) ltac:(lia)) as [s0 ->].
  destruct (lookup_lt_is_Some_2 (sumSquares t) item ltac:(lia)) as [q1 ->].
  destruct (lookup_lt_is_Some_2 (sumSquares t) (i - 1) ltac:(lia)) as [q0 ->].
  simpl.
  destruct (num_ltb _ (Fin 0)); [by eauto|].
  destruct (get2_is_Some _ _ (varianceCombinations t) (i - 1) (c - 1) Hvc)
    as [previous ->]; [lia..|].
  simpl. destruct (num_ltb _ (fst best)); eexists; (split; [done|]); simpl; lia.
Qed.

Lemma itemStep_filled c item t :
  2 ≤ c ≤ classCount → c ≤ item ≤ n → filled t →
  ∃ t', itemStep c item t = Some t' ∧ filled t' ∧
    limitSet (lowerClassLimits t') c item ∧
    ∀ i j, i ≠ item ∨ j ≠ c →
      get2 (lowerClassLimits t') i j = get2 (lowerClassLimits t) i j.
Proof.
  intros Hc Hitem (Hshapes & Hlimits). unfold itemStep.
  destruct (forM_invariant (λ best : num * nat, 1 ≤ snd best ≤ item)
              (candidateStep t c item) (downTo item c) (PInf, c - 1))
    as (best & -> & Hbest).
  { simpl. lia. }
  { intros i best Hi Hbest. apply downTo_elem in Hi.
    by apply candidateStep_runs; [| lia | lia | |]. }
  simpl. destruct Hshapes as (Hlcl & Hvc & Hs & Hq).
  destruct (set2_spec _ _ (varianceCombinations t) item c (fst best) Hvc)
    as (vc & -> & Hvc' & _); [lia..|]. simpl.
  destruct (set2_spec _ _ (lowerClassLimits t) item c (snd best) Hlcl)
    as (lcl & -> & Hlcl' & Hnew & Hframe); [lia..|]. simpl.
  eexists; split; [done|]. split_and!.
  - hnf; simpl. by split_and!.
  - simpl. apply (limitsOk_set (lowerClassLimits t) lcl item c (snd best)); [done|done|lia|done].
  - exists (snd best). simpl. split; [done|lia].
  - done.
Qed.

Lemma classesStep_filled c t :
  2 ≤ c ≤ classCount →
  filled t ∧ (∀ c' k, 2 ≤ c' < c → c' ≤ k ≤ n → limitSet (lowerClassLimits t) c' k) →
  ∃ t', classesStep sorted c t = Some t' ∧ filled t' ∧
    ∀ c' k, 2 ≤ c' < c + 1 → c' ≤ k ≤ n → limitSet (lowerClassLimits t') c' k.
Proof.
  intros Hc (Ht & Hbelow). unfold classesStep.
  destruct (forM_upTo
              (λ item t, filled t ∧
                 (∀ c' k, 2 ≤ c' < c → c' ≤ k ≤ n → limitSet (lowerClassLimits t) c' k) ∧
                 (∀ k, c ≤ k < item → limitSet (lowerClassLimits t) c k))
              (itemStep c) c n t) as (t' & -> & Ht' & Hbelow' & Hcol).
  - lia.
  - split; [done|]. split; [done|]. intros k Hk. lia.
  - intros item t0 Hitem (Ht0 & Hbelow0 & Hcol0).
    destruct (itemStep_filled c item t0 Hc Hitem Ht0) as (t1 & -> & Ht1 & Hnew & Hframe).
    exists t1. split; [done|]. split; [done|]. split.
    + intros c' k Hc' Hk. unfold limitSet. rewrite Hframe by lia. by apply Hbelow0.
    + intros k Hk. destruct (decide (k = item)) as [->|Hne]; [done|].
      unfold limitSet. rewrite Hframe by lia. apply Hcol0. lia.
  - exists t'. split; [done|]. split; [done|].
    intros c' k Hc' Hk. destruct (decide (c' = c)) as [->|Hne].
    + apply Hcol. lia.
    + apply Hbelow'; lia.
Qed.

(** The tables get filled, whatever the values are: no read or write of
    lines 427-479 leaves the tables, every lower limit is at most the number
    of values it is a limit of, and no limit that the search of lines
    455-477 has set is 0. *)
Lemma fillTables_filled :
  ∃ t, fillTables sorted classCount = Some t ∧ filled t ∧
    ∀ c k, 2 ≤ c ≤ classCount → c ≤ k ≤ n → limitSet (lowerClassLimits t) c k.
Proof.
  unfold fillTables.
  destruct (forM_invariant filled (initColumn sorted) (upTo 1 classCount)
              (Tables (newTable (n + 1) (classCount + 1) 0)
                      (newTable (n + 1) (classCount + 1) (Fin 0))
                      (replicate (n + 1) (Fin 0)) (replicate (n + 1) (Fin 0))))
    as (t1 & -> & Ht1).
  { split.
    - hnf; simpl. rewrite !length_replicate. split_and!; try done; apply newTable_shape.
    - intros c k Hc Hk. exists 0. split; [|lia]. simpl. unfold get2, newTable.
      rewrite lookup_replicate_2 by lia. simpl. apply lookup_replicate_2. lia. }
  { intros i t Hi Ht. apply upTo_elem in Hi. by apply initColumn_filled. }
  simpl.
  destruct (forM_invariant filled (prefixStep sorted) (upTo 1 n) t1 Ht1)
    as (t2 & -> & Ht2).
  { intros i t Hi Ht. apply upTo_elem in Hi. by apply prefixStep_filled. }
  simpl.
  destruct (forM_upTo
              (λ c t, filled t ∧
                 ∀ c' k, 2 ≤ c' < c → c' ≤ k ≤ n → limitSet (lowerClassLimits t) c' k)
              (classesStep sorted) 2 classCount t2) as (t3 & -> & Ht3 & Hset).
  - lia.
  - split; [done|]. intros c' k Hc'. lia.
  - intros c t Hc Ht. by apply classesStep_filled.
  - exists t3. split; [done|]. split; [done|]. intros c k Hc Hk. apply Hset; lia.
Qed.

(** The walk back stops in one way only: at the limit 0 with classes
    left. *)
Lemma backtrack_fails lcl :
  shape (n + 1) (classCount + 1) lcl → limitsOk n classCount lcl →
  ∀ count k breaks,
    count ≤ classCount → k ≤ n → length breaks = classCount + 1 →
    backtrack sorted lcl count k breaks = None ↔ walkFails lcl count k = true.
Proof.
  intros Hshape Hlimits count.
  induction count as [|count IH]; intros k breaks Hcount Hk Hlen; [done|].
  cbn [backtrack walkFails].
  destruct (Hlimits (S count) k ltac:(lia) Hk) as (idx & -> & Hidx). simpl.
  destruct idx as [|below]; [by destruct count|].
  unfold arr_get.
  destruct (lookup_lt_is_Some_2 sorted below ltac:(lia)) as [b ->]. simpl.
  rewrite arr_set_Some by lia. simpl.
  apply IH; [lia|lia|by rewrite length_insert].
Qed.
End JenksFacts.

(** What the walk back leaves, when it ends: the entries from [count] on
    are untouched, and those from 1 to [count - 1] are values. *)
Lemma backtrack_some sorted lcl : ∀ count k breaks breaks',
  backtrack sorted lcl count k breaks = Some breaks' →
  length breaks' = length breaks ∧
  (∀ j, count ≤ j → breaks' !! j = breaks !! j) ∧
  (∀ j b, 1 ≤ j < count → breaks' !! j = Some b → b ∈ sorted).
Proof.
  induction count as [|count IH]; intros k breaks breaks' Hrun.
  - injection Hrun as <-. split_and!; try done. intros j b Hj. lia.
  - cbn [backtrack] in Hrun.
    destruct (get2 lcl k (S count)) as [[|below]|]; simpl in Hrun; [| |done].
    + destruct count; [|done]. injection Hrun as <-.
      split_and!; try done. intros j b Hj. lia.
    + unfold arr_get, arr_set in Hrun.
      destruct (sorted !! below) as [b|] eqn:Hb; simpl in Hrun; [|done].
      destruct (decide (count < length breaks)) as [Hcount|]; simpl in Hrun; [|done].
      apply IH in Hrun as (Hlen & Hsame & Hin).
      rewrite length_insert in Hlen. split_and!; [done| |].
      * intros j Hj. rewrite Hsame by lia. apply list_lookup_insert_ne. lia.
      * intros j b' Hj Hb'. destruct (decide (j = count)) as [->|Hne].
        -- rewrite Hsame, list_lookup_insert_eq in Hb' by lia.
           simplify_eq. by eapply list_elem_of_lookup_2.
        -- apply (Hin j); [lia|done].
Qed.

(** * The pass that makes the breaks non-decreasing *)

Lemma raised_ge previous b : (previous <= (if Qltb b previous then previous else b))%Q.
Proof.
  destruct (Qltb b previous) eqn:H; [apply Qle_refl | by apply Qltb_ge].
Qed.

Lemma raiseFrom_length rest : ∀ previous, length (raiseFrom previous rest) = length rest.
Proof. induction rest as [|b rest IH]; intros previous; simpl; [done|]. by rewrite IH. Qed.

Lemma raiseFrom_nonDecreasing rest : ∀ previous,
  nonDecreasing (previous :: raiseFrom previous rest).
Proof.
  induction rest as [|b rest IH]; intros previous i x y Hx Hy.
  - by destruct i.
  - destruct i as [|i]; simpl in Hx, Hy.
    + simplify_eq. apply raised_ge.
    + by eapply (IH _ i).
Qed.

Lemma raiseFrom_last rest top : ∀ previous,
  (previous <= top)%Q → Forall (λ b, (b <= top)%Q) rest → last rest = Some top →
  last (raiseFrom previous rest) = Some top.
Proof.
  induction rest as [|b rest IH]; intros previous Hprev Hall Hlast; [done|].
  apply Forall_cons in Hall as [Hb Hall].
  destruct rest as [|b2 rest].
  - simpl in *. simplify_eq.
    by replace (Qltb top previous) with false by (symmetry; by apply Qltb_ge).
  - rewrite last_cons_cons in Hlast.
    change (raiseFrom previous (b :: b2 :: rest)) with
      ((if Qltb b previous then previous else b) ::
         raiseFrom (if Qltb b previous then previous else b) (b2 :: rest)).
    assert (∀ p, ∃ x l, raiseFrom p (b2 :: rest) = x :: l) as Hcons by (simpl; eauto).
    destruct (Hcons (if Qltb b previous then previous else b)) as (x & l & Heq).
    rewrite Heq, last_cons_cons, <- Heq.
    apply IH; [|done|done]. by destruct (Qltb b previous).
Qed.

Lemma enforceMonotone_length breaks : length (enforceMonotone breaks) = length breaks.
Proof. destruct breaks; simpl; [done|]. by rewrite raiseFrom_length. Qed.

Lemma enforceMonotone_nonDecreasing breaks : nonDecreasing (enforceMonotone breaks).
Proof.
  destruct breaks as [|b rest]; simpl; [by intros []|]. apply raiseFrom_nonDecreasing.
Qed.

Lemma enforceMonotone_head breaks : enforceMonotone breaks !! 0 = breaks !! 0.
Proof. by destruct breaks. Qed.

Lemma enforceMonotone_last breaks top :
  Forall (λ b, (b <= top)%Q) breaks → last breaks = Some top →
  last (enforceMonotone breaks) = Some top.
Proof.
  intros Hall Hlast. destruct breaks as [|b rest]; [done|].
  apply Forall_cons in Hall as [Hb Hall]. destruct rest as [|b2 rest]; [done|].
  rewrite last_cons_cons in Hlast.
  change (enforceMonotone (b :: b2 :: rest)) with (b :: raiseFrom b (b2 :: rest)).
  destruct (raiseFrom b (b2 :: rest)) as [|x l] eqn:Heq; [done|].
  rewrite last_cons_cons, <- Heq. by apply raiseFrom_last.
Qed.

(** * The general branch *)

Lemma filterFinite_Fin obs : filterFinite (map Fin obs) = obs.
Proof. induction obs as [|x obs IH]; simpl; [done|]. by rewrite IH. Qed.

Lemma replicate_sorted k (top : Q) : StronglySorted Qle (replicate k top).
Proof.
  induction k as [|k IH]; simpl; constructor; [done|].
  apply Forall_forall. intros y ->%elem_of_replicate_inv. apply Qle_refl.
Qed.

Lemma last_replicate {A} k (x : A) : 0 < k → last (replicate k x) = Some x.
Proof.
  intros Hk. rewrite last_lookup, length_replicate.
  apply lookup_replicate_2. lia.
Qed.

Lemma raiseFrom_members rest : ∀ previous b,
  b ∈ raiseFrom previous rest → b ∈ previous :: rest.
Proof.
  induction rest as [|x rest IH]; intros previous b Hb; simpl in Hb.
  - by apply elem_of_nil in Hb.
  - apply elem_of_cons in Hb as [->|Hb].
    + destruct (Qltb x previous); [by left | right; by left].
    + apply IH in Hb. apply elem_of_cons in Hb as [->|Hb].
      * destruct (Qltb x previous); [by left | right; by left].
      * by do 2 right.
Qed.

Lemma enforceMonotone_members breaks b : b ∈ enforceMonotone breaks → b ∈ breaks.
Proof.
  destruct breaks as [|x rest]; simpl; [done|].
  intros [->|Hb]%elem_of_cons; [by left|]. by apply raiseFrom_members.
Qed.

(** The breaks of the general branch, when the walk back ends. *)
Lemma jenksBreaks_shape sorted classCount breaks :
  1 ≤ classCount → StronglySorted Qle sorted →
  jenksBreaks sorted classCount = Some breaks →
  length breaks = classCount + 1 ∧ nonDecreasing breaks ∧
  breaks !! 0 = sorted !! 0 ∧ last breaks = last sorted ∧
  ∀ b, b ∈ breaks → b ∈ sorted.
Proof.
  intros Hclasses Hsorted. unfold jenksBreaks, arr_get.
  destruct (fillTables sorted classCount) as [t|]; simpl; [|done].
  destruct (sorted !! (length sorted - 1)) as [top|] eqn:Htop; simpl; [|done].
  rewrite arr_set_Some by (rewrite length_replicate; lia). simpl.
  destruct (backtrack sorted (lowerClassLimits t) classCount (length sorted)
              (<[classCount := top]> (replicate (classCount + 1) 0%Q)))
    as [b1|] eqn:Hwalk; simpl; [|done].
  apply backtrack_some in Hwalk as (Hlen & Hsame & Hin).
  rewrite length_insert, length_replicate in Hlen.
  destruct (sorted !! 0) as [bottom|] eqn:Hbottom; simpl; [|done].
  rewrite arr_set_Some by lia. simpl. intros [= <-].
  assert (last sorted = Some top) as Hlast
    by (by rewrite last_lookup, <- Nat.sub_1_r).
  assert (b1 !! classCount = Some top) as Hb1top.
  { rewrite Hsame by lia. apply list_lookup_insert_eq. rewrite length_replicate. lia. }
  assert (∀ j b, <[0 := bottom]> b1 !! j = Some b → b ∈ sorted) as Hvalues.
  { intros j b Hb. destruct (decide (j = 0)) as [->|Hj].
    - rewrite list_lookup_insert_eq in Hb by lia. simplify_eq.
      by eapply list_elem_of_lookup_2.
    - rewrite list_lookup_insert_ne in Hb by done.
      destruct (decide (j = classCount)) as [->|Hjc].
      + simplify_eq. by eapply list_elem_of_lookup_2.
      + apply (Hin j); [|done]. apply lookup_lt_Some in Hb. lia. }
  split_and!.
  - by rewrite enforceMonotone_length, length_insert.
  - apply enforceMonotone_nonDecreasing.
  - by rewrite enforceMonotone_head, list_lookup_insert_eq by lia.
  - rewrite Hlast. apply enforceMonotone_last.
    + apply Forall_lookup. intros j b Hb.
      apply (sorted_le_last sorted top Hsorted Hlast). by apply (Hvalues j).
    + rewrite last_lookup, length_insert, Hlen.
      replace (pred (classCount + 1)) with classCount by lia.
      rewrite list_lookup_insert_ne by lia. done.
  - intros b Hb. apply enforceMonotone_members in Hb.
    apply list_elem_of_lookup in Hb as [j Hj]. by apply (Hvalues j).
Qed.

(** The general branch fills its tables whatever the values are, and stops
    exactly when the walk back meets the limit 0 with classes left. *)
Lemma jenksBreaks_stops sorted classCount :
  1 ≤ classCount → classCount ≤ length sorted →
  ∃ t, fillTables sorted classCount = Some t ∧
    (∀ c k, 2 ≤ c ≤ classCount → c ≤ k ≤ length sorted →
       limitSet (lowerClassLimits t) c k) ∧
    (jenksBreaks sorted classCount = None ↔
     walkFails (lowerClassLimits t) classCount (length sorted) = true).
Proof.
  intros Hclasses Hsize.
  destruct (fillTables_filled sorted classCount Hclasses Hsize)
    as (t & Hfill & ((Hlcl & _) & Hlimits) & Hset).
  exists t. split; [done|]. split; [done|].
  unfold jenksBreaks, arr_get. rewrite Hfill. simpl.
  destruct (lookup_lt_is_Some_2 sorted (length sorted - 1) ltac:(lia)) as [top ->].
  destruct (lookup_lt_is_Some_2 sorted 0 ltac:(lia)) as [bottom Hbottom].
  simpl. rewrite arr_set_Some by (rewrite length_replicate; lia). simpl.
  rewrite <- (backtrack_fails sorted classCount Hclasses Hsize (lowerClassLimits t)
                Hlcl Hlimits
                classCount (length sorted)
                (<[classCount := top]> (replicate (classCount + 1) 0%Q)))
    by (rewrite ?length_insert, ?length_replicate; lia).
  destruct (backtrack sorted (lowerClassLimits t) classCount (length sorted) _)
    as [b1|] eqn:Hwalk; simpl; [|done].
  apply backtrack_some in Hwalk as (Hlen & _).
  rewrite length_insert, length_replicate in Hlen.
  rewrite Hbottom. simpl. rewrite arr_set_Some by lia. simpl.
  split; intros; done.
Qed.

(** Members that are not finite are dropped before anything else. *)
Lemma calculateNaturalBreaks_finite_part values classCount :
  calculateNaturalBreaks values classCount =
  calculateNaturalBreaks (map Fin (filterFinite values)) classCount.
Proof.
  unfold calculateNaturalBreaks. rewrite filterFinite_Fin.
  destruct values as [|x values]; [done|].
  destruct (filterFinite (x :: values)) as [|q obs] eqn:Hobs; [done|]. done.
Qed.

(** [null] is the answer for an input without a finite member only. *)
Lemma calculateNaturalBreaks_not_null values classCount :
  filterFinite values ≠ [] → calculateNaturalBreaks values classCount ≠ Null.
Proof.
  intros Hsome. rewrite calculateNaturalBreaks_finite_part.
  unfold calculateNaturalBreaks. rewrite filterFinite_Fin.
  destruct (map Fin (filterFinite values)) as [|x0 values0] eqn:Hmap;
    [by destruct (filterFinite values)|].
  clear Hmap. pose proof (sortAscending_perm (filterFinite values)) as Hperm.
  destruct (sortAscending (filterFinite values)) as [|y sorted].
  { by apply Permutation_nil in Hperm. }
  destruct (decide _); [done|]. by destruct (jenksBreaks _ _).
Qed.

(** The shape of the breaks on the finite values [obs] of the input, when
    breaks are returned. *)
Lemma naturalBreaks_shape obs classCount breaks :
  1 ≤ classCount →
  calculateNaturalBreaks (map Fin obs) classCount = Breaks breaks →
  length breaks = classCount + 1 ∧
  nonDecreasing breaks ∧
  (∀ b, b ∈ breaks → b ∈ obs) ∧
  (∃ least, breaks !! 0 = Some least ∧ ∀ x, x ∈ obs → (least <= x)%Q) ∧
  (∃ greatest, last breaks = Some greatest ∧ ∀ x, x ∈ obs → (x <= greatest)%Q).
Proof.
  intros Hclasses. unfold calculateNaturalBreaks.
  destruct (map Fin obs) as [|x0 values0] eqn:Hmap; [done|].
  rewrite <- Hmap, filterFinite_Fin. clear Hmap x0 values0.
  pose proof (sortAscending_sorted obs) as Hsorted.
  pose proof (sortAscending_elem obs) as Helem.
  destruct (sortAscending obs) as [|y sorted] eqn:Hsort; [done|].
  assert (∃ top, last (y :: sorted) = Some top) as [top Hlast].
  { destruct (last (y :: sorted)) eqn:H; [by eauto|]. by apply last_None in H. }
  assert (∀ x, x ∈ obs → (y <= x)%Q) as Hmin.
  { intros x Hx. apply (sorted_head_le y sorted Hsorted). by apply Helem. }
  assert (∀ x, x ∈ obs → (x <= top)%Q) as Hmax.
  { intros x Hx. apply (sorted_le_last _ top Hsorted Hlast). by apply Helem. }
  destruct (decide (length (distinct (y :: sorted)) ≤ classCount)) as [Hu|Hu].
  - set (u := distinct (y :: sorted)) in *.
    assert (StronglySorted Qle u) as Hus
      by (by apply strictly_sorted_le, distinctFrom_sorted).
    assert (∃ utop, last u = Some utop) as [utop Hulast].
    { destruct (last u) eqn:H; [by eauto|]. by apply last_None in H. }
    assert (utop ∈ u) as Hutop.
    { apply last_Some in Hulast as [l' ->]. apply elem_of_app. right. by left. }
    rewrite (paddedBreaks_top _ _ utop Hulast). intros Hbreaks.
    replace breaks with (u ++ replicate (S classCount - length u) utop) by congruence.
    clear Hbreaks. split_and!.
    + rewrite length_app, length_replicate. lia.
    + apply sorted_nonDecreasing, StronglySorted_app_2; [|done|apply replicate_sorted].
      intros x1 x2 Hx1 ->%elem_of_replicate_inv. by apply (sorted_le_last u).
    + intros b [Hb|Hb]%elem_of_app.
      * by apply Helem, distinct_elem.
      * apply elem_of_replicate_inv in Hb as ->. by apply Helem, distinct_elem.
    + exists y. split; [|done].
      rewrite lookup_app_l by (unfold u, distinct; simpl; lia). done.
    + exists utop. split.
      * rewrite last_app, last_replicate by lia. done.
      * intros x Hx. apply Helem in Hx.
        destruct (distinct_covers _ x Hx) as (z & Hz & ->).
        by apply (sorted_le_last u).
  - destruct (jenksBreaks (y :: sorted) classCount) as [breaks'|] eqn:Hjenks; [|done].
    intros [= <-].
    destruct (jenksBreaks_shape (y :: sorted) classCount breaks' Hclasses Hsorted Hjenks)
      as (Hlen & Hmono & Hhead & Hblast & Hmembers).
    split_and!; try done.
    + intros b Hb. by apply Helem, Hmembers.
    + exists y. by rewrite Hhead.
    + exists top. by rewrite Hblast.
Qed.

(** C1, on the code.  For the five positive observations 0.1, 0.2, 0.3, 0.4
    and 0.6 and four classes, and for the seven observations 0.1 to 0.7 and
    the six classes of the application, [calculateNaturalBreaks] returns no
    breaks: rounding makes [currentVariance] negative for every candidate of
    some entry, the lower limit stays [classes - 1], and the walk back of
    lines 487-492 reads [lowerClassLimits[-1]] and raises a [TypeError].
    [ensureHexData2Levels] then stores nothing for seven hexagons of these
    values. *)
Theorem calculateNaturalBreaks_raises (StringToNumber : string → num) :
  calculateNaturalBreaks
    (map (λ q, Fin (literal q)) [1 # 10; 2 # 10; 3 # 10; 4 # 10; 6 # 10]) 4 =
    OutOfBounds ∧
  calculateNaturalBreaks
    (map (λ q, Fin (literal q)) [1 # 10; 2 # 10; 3 # 10; 4 # 10; 5 # 10; 6 # 10; 7 # 10])
    (length prideColors) = OutOfBounds ∧
  ensureHexData2Levels StringToNumber
    (MapState
       (Some (map (λ q, featureWith (JNumber (Fin (literal q))))
                  [1 # 10; 2 # 10; 3 # 10; 4 # 10; 5 # 10; 6 # 10; 7 # 10]))
       []) = Stopped.
Proof.
  split_and!.
  - by vm_compute.
  - by vm_compute.
  - by vm_compute.
Qed.

(** * ensureHexData2Levels never takes the fallback *)

(** With a positive value among the features, [ensureHexData2Levels] ends
    as [calculateNaturalBreaks] does. *)
Lemma ensureHexData2Levels_cases (StringToNumber : string → num) features old v vs :
  positiveValues StringToNumber features = v :: vs →
  (∃ breaks,
     calculateNaturalBreaks (map Fin (v :: vs)) (length prideColors) = Breaks breaks ∧
     ensureHexData2Levels StringToNumber (MapState (Some features) old) =
       Done (MapState (Some (assignLevelsToFeatures StringToNumber features breaks).1)
                      breaks)
            (assignLevelsToFeatures StringToNumber features breaks).2) ∨
  (calculateNaturalBreaks (map Fin (v :: vs)) (length prideColors) = OutOfBounds ∧
   ensureHexData2Levels StringToNumber (MapState (Some features) old) = Stopped).
Proof.
  intros Hpos.
  pose proof (calculateNaturalBreaks_not_null (map Fin (v :: vs)) (length prideColors))
    as Hnot. rewrite filterFinite_Fin in Hnot. specialize (Hnot ltac:(done)).
  unfold ensureHexData2Levels. cbn [hexData2]. rewrite Hpos.
  destruct (calculateNaturalBreaks (map Fin (v :: vs)) (length prideColors))
    as [|breaks|]; [done| |by right].
  left. exists breaks. split; [done|].
  by destruct (assignLevelsToFeatures StringToNumber features breaks).
Qed.

(** X1.  With a positive value among the features, [calculateNaturalBreaks]
    does not return [null], so the equal-interval branch of lines 557-569 is
    not reached: [ensureHexData2Levels] stores the breaks of
    [calculateNaturalBreaks], or ends with the [TypeError] raised there. *)
Theorem ensureHexData2Levels_never_falls_back
    (StringToNumber : string → num) features old v vs :
  positiveValues StringToNumber features = v :: vs →
  calculateNaturalBreaks (map Fin (v :: vs)) (length prideColors) ≠ Null ∧
  ((∃ breaks,
      calculateNaturalBreaks (map Fin (v :: vs)) (length prideColors) = Breaks breaks ∧
      ensureHexData2Levels StringToNumber (MapState (Some features) old) =
        Done (MapState (Some (assignLevelsToFeatures StringToNumber features breaks).1)
                       breaks)
             (assignLevelsToFeatures StringToNumber features breaks).2) ∨
   (calculateNaturalBreaks (map Fin (v :: vs)) (length prideColors) = OutOfBounds ∧
    ensureHexData2Levels StringToNumber (MapState (Some features) old) = Stopped)).
Proof.
  intros Hpos. split.
  - apply calculateNaturalBreaks_not_null. by rewrite filterFinite_Fin.
  - by apply ensureHexData2Levels_cases.
Qed.

(** * Further facts: the breaks *)

(** X2.  Every break that [calculateNaturalBreaks] returns is one of the
    finite values of its input: no break is interpolated or invented. *)
Theorem naturalBreaks_are_values values classCount breaks :
  1 ≤ classCount →
  calculateNaturalBreaks values classCount = Breaks breaks →
  ∀ b, b ∈ breaks → Fin b ∈ values.
Proof.
  intros Hclasses Hcalc b Hb.
  rewrite calculateNaturalBreaks_finite_part in Hcalc.
  destruct (naturalBreaks_shape (filterFinite values) classCount breaks Hclasses Hcalc)
    as (_ & _ & Hmembers & _).
  apply Hmembers in Hb. clear -Hb.
  induction values as [|x values IH]; [by apply elem_of_nil in Hb|].
  destruct x as [q| | |]; simpl in Hb; try (right; by apply IH).
  apply elem_of_cons in Hb as [->|Hb]; [by left | right; by apply IH].
Qed.

Lemma naturalBreaks_are_values_witness :
  Fin 10 ∈ nums [1; 2; 3; 10; 11; 12; 50; 51; 52]%Z.
Proof.
  apply (naturalBreaks_are_values (nums [1; 2; 3; 10; 11; 12; 50; 51; 52]%Z) 3
           [1; 10; 50; 52]%Q).
  - lia.
  - by vm_compute.
  - right. by left.
Defined.

(** X3.  For [classCount >= 1] the answer of [calculateNaturalBreaks] is
    [null] exactly when the input has no finite member.  Otherwise it is an
    array of [classCount + 1] breaks that never fall, from the least to the
    greatest finite value, or the call raises; and when there are more
    distinct finite values than classes, the tables of the dynamic programme
    are filled without a read or a write outside them, and the call raises
    exactly when the walk back meets the lower limit 0 with classes left. *)
Theorem calculateNaturalBreaks_outcome values classCount :
  1 ≤ classCount →
  (calculateNaturalBreaks values classCount = Null ↔ filterFinite values = []) ∧
  (∀ breaks, calculateNaturalBreaks values classCount = Breaks breaks →
     length breaks = classCount + 1 ∧ nonDecreasing breaks ∧
     (∃ least, breaks !! 0 = Some least ∧
        ∀ x, x ∈ filterFinite values → (least <= x)%Q) ∧
     (∃ greatest, last breaks = Some greatest ∧
        ∀ x, x ∈ filterFinite values → (x <= greatest)%Q)) ∧
  (classCount < length (distinct (sortAscending (filterFinite values))) →
   ∃ t, fillTables (sortAscending (filterFinite values)) classCount = Some t ∧
     (calculateNaturalBreaks values classCount = OutOfBounds ↔
      walkFails (lowerClassLimits t) classCount
                (length (sortAscending (filterFinite values))) = true)).
Proof.
  intros Hclasses. split_and!.
  - split.
    + intros Hnull. destruct (decide (filterFinite values = [])) as [|Hsome]; [done|].
      by destruct (calculateNaturalBreaks_not_null values classCount Hsome).
    + intros Hnone. rewrite calculateNaturalBreaks_finite_part, Hnone. done.
  - intros breaks Hcalc. rewrite calculateNaturalBreaks_finite_part in Hcalc.
    destruct (naturalBreaks_shape _ _ _ Hclasses Hcalc) as (? & ? & _ & ? & ?).
    by split_and!.
  - intros Hdistinct. rewrite calculateNaturalBreaks_finite_part.
    unfold calculateNaturalBreaks. rewrite filterFinite_Fin.
    pose proof (distinctFrom_length (sortAscending (filterFinite values)) []) as Hlen.
    fold (distinct (sortAscending (filterFinite values))) in Hlen.
    destruct (jenksBreaks_stops (sortAscending (filterFinite values)) classCount)
      as (t & Hfill & _ & Hstops); [lia|lia|].
    exists t. split; [done|]. rewrite <- Hstops.
    destruct (map Fin (filterFinite values)) as [|x0 values0] eqn:Hmap.
    { destruct (filterFinite values); [simpl in Hdistinct; lia|done]. }
    destruct (sortAscending (filterFinite values)) as [|y sorted];
      [simpl in Hdistinct; lia|].
    destruct (decide _) as [Hle|_]; [lia|].
    by destruct (jenksBreaks (y :: sorted) classCount).
Qed.

Lemma calculateNaturalBreaks_outcome_witness :
  ∃ breaks, calculateNaturalBreaks [NaN; Fin 4; PInf; Fin 2] 2 = Breaks breaks ∧
    length breaks = 2 + 1.
Proof.
  destruct (calculateNaturalBreaks_outcome [NaN; Fin 4; PInf; Fin 2] 2 ltac:(lia))
    as (_ & Hshape & _).
  destruct (Hshape [2; 4; 4]%Q) as (Hlen & _); [by vm_compute|].
  by exists [2; 4; 4]%Q.
Defined.

Lemma walkFails_last lcl k : walkFails lcl 1 k = false.
Proof. simpl. by destruct (get2 lcl k 1) as [[|below]|]. Qed.

(** X11.  For [classCount >= 1], [calculateNaturalBreaks] raises only with
    three classes or more and more distinct finite values than classes: with
    one or two classes, or with no more distinct values than classes, it
    returns breaks whatever the values are. *)
Theorem calculateNaturalBreaks_raises_only values classCount :
  1 ≤ classCount →
  calculateNaturalBreaks values classCount = OutOfBounds →
  3 ≤ classCount ∧
  classCount < length (distinct (sortAscending (filterFinite values))).
Proof.
  intros Hclasses. rewrite calculateNaturalBreaks_finite_part.
  unfold calculateNaturalBreaks. rewrite filterFinite_Fin.
  destruct (map Fin (filterFinite values)) as [|x0 values0]; [done|].
  pose proof (distinctFrom_length (sortAscending (filterFinite values)) []) as Hlen.
  fold (distinct (sortAscending (filterFinite values))) in Hlen.
  destruct (sortAscending (filterFinite values)) as [|y sorted] eqn:Hsort; [done|].
  destruct (decide _) as [Hle|Hmore]; [done|].
  destruct (jenksBreaks_stops (y :: sorted) classCount)
    as (t & _ & Hset & Hstops); [lia|lia|].
  destruct (jenksBreaks (y :: sorted) classCount) as [breaks|]; [done|].
  intros _. split; [|lia].
  assert (walkFails (lowerClassLimits t) classCount (length (y :: sorted)) = true)
    as Hjenks by by apply Hstops.
  clear Hstops.
  destruct (decide (3 ≤ classCount)) as [|Hfew]; [done|]. exfalso.
  destruct (decide (classCount = 1)) as [->|Hne].
  { by rewrite walkFails_last in Hjenks. }
  replace classCount with 2 in * by lia.
  destruct (Hset 2 (length (y :: sorted))) as (idx & Hidx & Hpos); [lia|lia|].
  cbn [walkFails] in Hjenks. rewrite Hidx in Hjenks.
  destruct idx as [|below]; [lia|].
  destruct (get2 (lowerClassLimits t) below 1) as [[|below']|]; done.
Qed.

Lemma calculateNaturalBreaks_raises_only_witness :
  3 ≤ 4 ∧
  4 < length (distinct (sortAscending (filterFinite
        (map (λ q, Fin (literal q)) [1 # 10; 2 # 10; 3 # 10; 4 # 10; 6 # 10])))).
Proof.
  apply (calculateNaturalBreaks_raises_only
           (map (λ q, Fin (literal q)) [1 # 10; 2 # 10; 3 # 10; 4 # 10; 6 # 10]) 4).
  - lia.
  - by vm_compute.
Defined.

(** * Further facts: the level scan *)

Lemma scanLevel_bounds value breaks : ∀ k,
  scanLevel value k breaks = 0 ∨
  k + 1 ≤ scanLevel value k breaks ≤ k + (length breaks - 1).
Proof.
  induction breaks as [|lower rest IH]; intros k; [by left|].
  destruct rest as [|upper rest']; [by left|].
  rewrite scanLevel_cons. destruct (_ && _); [right; simpl; lia|].
  destruct (IH (k + 1)) as [->|?]; [by left | right; simpl in *; lia].
Qed.

Lemma scanLevel_sound value breaks : ∀ k j,
  scanLevel value k breaks = k + j + 1 →
  inInterval value breaks j ∧ ∀ i, i < j → ¬ inInterval value breaks i.
Proof.
  induction breaks as [|lower rest IH]; intros k j Hscan; [simpl in Hscan; lia|].
  destruct rest as [|upper rest']; [simpl in Hscan; lia|].
  rewrite scanLevel_cons in Hscan.
  destruct (num_leb (Fin lower) value && num_leb value (Fin upper)) eqn:Hhere.
  - assert (j = 0) as -> by lia.
    apply andb_true_iff in Hhere as [? ?].
    split; [by exists lower, upper | intros i Hi; lia].
  - pose proof (scanLevel_bounds value (upper :: rest') (k + 1)) as Hcase.
    destruct j as [|j]; [lia|].
    destruct (IH (k + 1) j ltac:(lia)) as [Hin Hbefore].
    split.
    + destruct Hin as (lo & up & ? & ? & ? & ?). by exists lo, up.
    + intros [|i] Hi (lo & up & Hlo & Hup & H1 & H2).
      * simpl in Hlo, Hup. simplify_eq. by rewrite H1, H2 in Hhere.
      * apply (Hbefore i); [lia|]. by exists lo, up.
Qed.

Lemma scanLevel_between value breaks : ∀ k lo hi,
  breaks !! 0 = Some lo → last breaks = Some hi →
  num_leb (Fin lo) value = true → num_leb value (Fin hi) = true →
  2 ≤ length breaks →
  k + 1 ≤ scanLevel value k breaks.
Proof.
  induction breaks as [|lower rest IH]; intros k lo hi Hlo Hhi Hge Hle Hlen; [done|].
  destruct rest as [|upper rest']; [simpl in Hlen; lia|].
  simpl in Hlo. simplify_eq. rewrite scanLevel_cons, Hge. cbn [andb].
  destruct (num_leb value (Fin upper)) eqn:Hup; [lia|].
  rewrite last_cons_cons in Hhi.
  destruct rest' as [|x rest''].
  { simpl in Hhi. simplify_eq. by rewrite Hle in Hup. }
  assert (num_leb (Fin upper) value = true) as Hge'.
  { destruct value as [v| | |]; simpl in *; try done.
    apply Qle_bool_iff. apply not_true_iff_false in Hup.
    rewrite Qle_bool_iff in Hup. by apply Qlt_le_weak, Qnot_le_lt. }
  etrans; [|apply (IH (k + 1) upper hi eq_refl Hhi Hge' Hle); simpl; lia]. lia.
Qed.

Section ScanFacts.
Variable StringToNumber : string → num.

(** X4.  The level of a feature is [j + 1] exactly when its value is above
    zero, the interval [j] of the breaks holds it and no interval before [j]
    does; so the level is 0 exactly when the value is not above zero or no
    interval holds it. *)
Theorem levelOf_first_interval f breaks j :
  levelOf StringToNumber f breaks = j + 1 ↔
  num_ltb (Fin 0) (featureValue StringToNumber f) = true ∧
  inInterval (featureValue StringToNumber f) breaks j ∧
  ∀ i, i < j → ¬ inInterval (featureValue StringToNumber f) breaks i.
Proof.
  unfold levelOf.
  destruct (num_ltb (Fin 0) (featureValue StringToNumber f)) eqn:Hpos.
  - split.
    + intros H. split; [done|]. by apply (scanLevel_sound _ _ 0 j).
    + intros (_ & Hin & Hbefore). by rewrite (scanLevel_first _ _ j 0).
  - split; [lia|]. by intros [? _].
Qed.

(** X5.  The level is never above [breaks.length - 1], whatever the breaks
    and the feature are. *)
Theorem levelOf_at_most f breaks :
  levelOf StringToNumber f breaks ≤ length breaks - 1.
Proof.
  unfold levelOf. destruct (num_ltb _ _); [|lia].
  destruct (scanLevel_bounds (featureValue StringToNumber f) breaks 0); lia.
Qed.
End ScanFacts.

(** * Further facts: loading the second data set *)

Lemma filterFinite_elem l q : q ∈ filterFinite l ↔ Fin q ∈ l.
Proof.
  induction l as [|x l IH]; simpl.
  - split; intros H; by apply elem_of_nil in H.
  - destruct x as [p| | |]; rewrite ?elem_of_cons, IH.
    + split; intros [H|H]; auto; left; congruence.
    + split; [by right | by intros [?|?]].
    + split; [by right | by intros [?|?]].
    + split; [by right | by intros [?|?]].
Qed.

Lemma fold_Qmin_member vs : ∀ a, fold_left Qmin vs a ∈ a :: vs.
Proof.
  induction vs as [|x vs IH]; intros a; simpl; [by left|].
  specialize (IH (Qmin a x)). apply elem_of_cons in IH as [->|IH].
  - unfold Qmin, GenericMinMax.gmin. destruct (a ?= x)%Q; [by left..|right; by left].
  - by do 2 right.
Qed.

Lemma fold_Qmax_member vs : ∀ a, fold_left Qmax vs a ∈ a :: vs.
Proof.
  induction vs as [|x vs IH]; intros a; simpl; [by left|].
  specialize (IH (Qmax a x)). apply elem_of_cons in IH as [->|IH].
  - unfold Qmax, GenericMinMax.gmax. destruct (a ?= x)%Q; [by left|right; by left|by left].
  - by do 2 right.
Qed.

Lemma fold_Qmin_lower vs : ∀ a x, x ∈ a :: vs → (fold_left Qmin vs a <= x)%Q.
Proof.
  induction vs as [|y vs IH]; intros a x Hx; simpl.
  - apply list_elem_of_singleton in Hx as ->. apply Qle_refl.
  - apply elem_of_cons in Hx as [->|Hx].
    + eapply Qle_trans; [apply fold_Qmin_le | apply Q.le_min_l].
    + apply elem_of_cons in Hx as [->|Hx].
      * eapply Qle_trans; [apply fold_Qmin_le | apply Q.le_min_r].
      * apply IH. by right.
Qed.

Lemma fold_Qmax_upper vs : ∀ a x, x ∈ a :: vs → (x <= fold_left Qmax vs a)%Q.
Proof.
  induction vs as [|y vs IH]; intros a x Hx; simpl.
  - apply list_elem_of_singleton in Hx as ->. apply Qle_refl.
  - apply elem_of_cons in Hx as [->|Hx].
    + eapply Qle_trans; [apply Q.le_max_l | apply fold_Qmax_ge].
    + apply elem_of_cons in Hx as [->|Hx].
      * eapply Qle_trans; [apply Q.le_max_r | apply fold_Qmax_ge].
      * apply IH. by right.
Qed.

Lemma scanLevel_PInf breaks : ∀ k, scanLevel PInf k breaks = 0.
Proof.
  induction breaks as [|lower rest IH]; intros k; [done|].
  destruct rest as [|upper rest']; [done|].
  rewrite scanLevel_cons. cbn [num_leb andb]. apply IH.
Qed.

Section LoadFacts.
Variable StringToNumber : string → num.

Local Abbreviation valueOf := (featureValue StringToNumber).
Local Abbreviation positives := (positiveValues StringToNumber).
Local Abbreviation levelFor := (levelOf StringToNumber).

Lemma featureValue_not_NaN f : valueOf f ≠ NaN.
Proof.
  unfold featureValue, orZero.
  destruct (toNumber _ _) as [q| | |]; try done. by destruct (Qeq_bool q 0).
Qed.

Lemma positiveValues_elem features q :
  q ∈ positives features ↔
  (0 < q)%Q ∧ ∃ f, f ∈ features ∧ valueOf f = Fin q.
Proof.
  unfold positiveValues.
  rewrite filterFinite_elem, list_elem_of_filter, list_elem_of_In, in_map_iff.
  simpl. rewrite Qltb_lt. split.
  - intros [Hq (f & Hf & Hin)]. split; [done|]. exists f.
    split; [by apply list_elem_of_In | done].
  - intros [Hq (f & Hin & Hf)]. split; [done|]. exists f.
    split; [done | by apply list_elem_of_In].
Qed.

Lemma positiveValues_count features :
  length (positives features) =
  length (filter (λ f, isFinite (valueOf f) && num_ltb (Fin 0) (valueOf f) = true)
                 features).
Proof.
  unfold positiveValues.
  induction features as [|f features IH]; [done|].
  cbn [map]. rewrite !filter_cons.
  destruct (valueOf f) as [q| | |]; simpl; try done.
  destruct (decide (Qltb 0 q = true)); simpl; [by f_equal | done].
Qed.

(** X6.  The statistics [loadHexData2] stores: [positiveCount] is the number
    of features whose value is finite and above zero; with none, [min] and
    [max] are 0; otherwise [min] and [max] are values of such features,
    [min] is above zero, and every such value lies between them. *)
Theorem hexData2StatsOf_spec features :
  Stats.positiveCount (hexData2StatsOf StringToNumber features) =
    length (filter (λ f, isFinite (valueOf f) &&
                         num_ltb (Fin 0) (valueOf f) = true) features) ∧
  ∃ lo hi,
    Stats.min (hexData2StatsOf StringToNumber features) = JNumber (Fin lo) ∧
    Stats.max (hexData2StatsOf StringToNumber features) = JNumber (Fin hi) ∧
    (positives features = [] → lo = 0%Q ∧ hi = 0%Q) ∧
    (positives features ≠ [] →
       lo ∈ positives features ∧ hi ∈ positives features ∧ (0 < lo)%Q ∧
       ∀ x, x ∈ positives features → (lo <= x)%Q ∧ (x <= hi)%Q).
Proof.
  split.
  - rewrite <- positiveValues_count. unfold hexData2StatsOf.
    by destruct (positives features).
  - unfold hexData2StatsOf.
    destruct (positives features) as [|v vs] eqn:Hpos.
    + exists 0%Q, 0%Q. by split_and!.
    + exists (arrayMin v vs), (arrayMax v vs). simpl. split_and!; try done.
      intros _.
      assert (arrayMin v vs ∈ v :: vs) as Hmin by apply fold_Qmin_member.
      split_and!.
      * done.
      * apply fold_Qmax_member.
      * rewrite <- Hpos in Hmin. by apply positiveValues_elem in Hmin as [? _].
      * intros x Hx. split; [by apply fold_Qmin_lower | by apply fold_Qmax_upper].
Qed.

Lemma assignEach_normal features breaks :
  Forall is_Some features → (assignEach StringToNumber features breaks).2 = Normal.
Proof.
  induction 1 as [|[f|] features Hf _ IH]; [done| |by destruct Hf].
  simpl. destruct (assignEach StringToNumber features breaks). done.
Qed.

Lemma assignEach_length features breaks :
  length (assignEach StringToNumber features breaks).1 = length features.
Proof.
  induction features as [|[f|] features IH]; [done| |done].
  simpl. destruct (assignEach StringToNumber features breaks). simpl in *. by rewrite IH.
Qed.

(** X7.  When every member of the array is an object, at least one has a
    finite value above zero and [calculateNaturalBreaks] does not raise,
    [ensureHexData2Levels] ends normally, stores seven non-decreasing breaks
    and gives every feature a [pride_level] from 0 to 6; the level is 1 or
    more exactly for the features whose value is finite and above zero. *)
Theorem ensureHexData2Levels_levels features old :
  Forall is_Some features →
  positives features ≠ [] →
  ensureHexData2Levels StringToNumber (MapState (Some features) old) ≠ Stopped →
  ∃ fs breaks,
    ensureHexData2Levels StringToNumber (MapState (Some features) old) =
      Done (MapState (Some fs) breaks) Normal ∧
    length breaks = 7 ∧ nonDecreasing breaks ∧
    length fs = length features ∧
    ∀ i f, features !! i = Some (Some f) →
      ∃ f' level, fs !! i = Some f' ∧
        storedLevel f' = Some (JNumber (Fin (ofNat level))) ∧
        level ≤ 6 ∧
        (1 ≤ level ↔ ∃ q, valueOf (Some f) = Fin q ∧ (0 < q)%Q).
Proof.
  intros Hobjects Hpos Hruns.
  destruct (positives features) as [|v vs] eqn:Hvalues; [done|].
  destruct (ensureHexData2Levels_cases StringToNumber features old v vs Hvalues)
    as [(breaks & Hcalc & _) | (_ & Hstopped)]; [|done].
  destruct (naturalBreaks_shape (v :: vs) (length prideColors) breaks
              ltac:(simpl; lia) Hcalc)
    as (Hlen & Hmono & _ & (least & Hhead & Hleast) & (greatest & Hlast & Hgreatest)).
  exists (assignEach StringToNumber features breaks).1, breaks.
  split_and!; try done.
  - unfold ensureHexData2Levels. cbn [hexData2]. rewrite Hvalues, Hcalc.
    unfold assignLevelsToFeatures.
    destruct (decide (length breaks < 2)); [simpl in Hlen; lia|].
    pose proof (assignEach_normal features breaks Hobjects) as Hnormal.
    destruct (assignEach StringToNumber features breaks) as [fs c]. simpl in *.
    by rewrite Hnormal.
  - apply assignEach_length.
  - intros i f Hi.
    exists (Some (Feature (Some (withLevel (properties f) (levelFor (Some f) breaks))))),
           (levelFor (Some f) breaks).
    split_and!.
    + by apply assignEach_objects.
    + unfold storedLevel, ownProperty, withLevel. by rewrite lookup_insert_eq.
    + unfold levelOf. destruct (num_ltb _ _); [|lia].
      destruct (scanLevel_bounds (valueOf (Some f)) breaks 0) as [->|?];
        simpl in Hlen; lia.
    + unfold levelOf. split.
      * intros Hlevel.
        destruct (num_ltb (Fin 0) (valueOf (Some f))) eqn:Hgt; [|lia].
        destruct (valueOf (Some f)) as [q| | |] eqn:Hv; try done.
        -- exists q. split; [done|]. by apply Qltb_lt.
        -- rewrite scanLevel_PInf in Hlevel. lia.
      * intros (q & Hv & Hq). rewrite Hv.
        replace (num_ltb (Fin 0) (Fin q)) with true by (symmetry; by apply Qltb_lt).
        assert (q ∈ v :: vs) as Hin.
        { rewrite <- Hvalues. apply positiveValues_elem. split; [done|].
          exists (Some f). split; [by eapply list_elem_of_lookup_2 | done]. }
        apply (scanLevel_between (Fin q) breaks 0 least greatest); try done.
        -- apply Qle_bool_iff. by apply Hleast.
        -- apply Qle_bool_iff. by apply Hgreatest.
        -- simpl in Hlen. lia.
Qed.

(** X8.  After [loadHexData2], when some feature has a finite value above
    zero and [calculateNaturalBreaks] does not raise, the first break stored
    equals the [min] and the last break equals the [max] of the statistics
    stored by the same call. *)
Theorem loadHexData2_breaks_span_stats features s :
  positives features ≠ [] →
  (loadHexData2 StringToNumber (Some features) s).2 ≠ Stopped →
  ∃ stats s' c lo hi first final,
    loadHexData2 StringToNumber (Some features) s = (stats, Done s' c) ∧
    Stats.min stats = JNumber (Fin lo) ∧ Stats.max stats = JNumber (Fin hi) ∧
    hexData2Breaks s' !! 0 = Some first ∧ last (hexData2Breaks s') = Some final ∧
    (first == lo)%Q ∧ (final == hi)%Q.
Proof.
  intros Hpos Hruns.
  destruct (positives features) as [|v vs] eqn:Hvalues; [done|].
  destruct (ensureHexData2Levels_cases StringToNumber features
              (hexData2Breaks s) v vs Hvalues)
    as [(breaks & Hcalc & _) | (_ & Hstopped)]; [|done].
  destruct (naturalBreaks_shape (v :: vs) (length prideColors) breaks
              ltac:(simpl; lia) Hcalc)
    as (_ & _ & Hmembers & (least & Hhead & Hleast) & (greatest & Hlast & Hgreatest)).
  destruct (assignLevelsToFeatures StringToNumber features breaks) as [fs c] eqn:Hassign.
  exists (hexData2StatsOf StringToNumber features), (MapState (Some fs) breaks), c,
         (arrayMin v vs), (arrayMax v vs), least, greatest.
  split_and!; try done.
  - unfold loadHexData2. f_equal. unfold ensureHexData2Levels. cbn [hexData2].
    by rewrite Hvalues, Hcalc, Hassign.
  - unfold hexData2StatsOf. by rewrite Hvalues.
  - unfold hexData2StatsOf. by rewrite Hvalues.
  - apply Qle_antisym.
    + apply Hleast, fold_Qmin_member.
    + apply fold_Qmin_lower, Hmembers. by eapply list_elem_of_lookup_2.
  - apply Qle_antisym.
    + apply fold_Qmax_upper, Hmembers.
      apply last_Some in Hlast as [l' ->]. apply elem_of_app. right. by left.
    + apply Hgreatest, fold_Qmax_member.
Qed.

(** X9.  When no feature has a finite value above zero, [loadHexData2]
    stores statistics that are all zero and empties the breaks, and the
    features, null members among them, are left exactly as they were: no
    [pride_level] is written. *)
Theorem loadHexData2_nothing_positive features s :
  positives features = [] →
  loadHexData2 StringToNumber (Some features) s =
    (Stats.Make (JNumber (Fin 0)) (JNumber (Fin 0)) 0,
     Done (MapState (Some features) []) Normal).
Proof.
  intros Hpos. unfold loadHexData2. f_equal.
  - unfold hexData2StatsOf. simpl. by rewrite Hpos.
  - unfold ensureHexData2Levels. cbn [hexData2]. by rewrite Hpos.
Qed.
End LoadFacts.

(** * Further facts: the domain of the colours *)

Section ScaleFacts.
Variable StringToNumber : string → num.

Lemma domainMin_nonneg stats : (0 <= domainMin stats)%Q.
Proof.
  unfold domainMin. destruct (statsMin stats) as [| | |[q| | |]|]; try apply Qle_refl.
  destruct (Qltb 0 q) eqn:H; [|apply Qle_refl]. by apply Qlt_le_weak, Qltb_lt.
Qed.

Lemma clampedValue_within lo hi f :
  (lo <= hi)%Q →
  ∃ c, clampedValue StringToNumber lo hi f = Fin c ∧ (lo <= c)%Q ∧ (c <= hi)%Q.
Proof.
  intros Hle. unfold clampedValue.
  pose proof (featureValue_not_NaN StringToNumber f) as Hnan.
  destruct (featureValue StringToNumber f) as [q| | |]; [| | |done]; simpl.
  - eexists; split; [done|]. split.
    + apply Q.min_glb; [done | apply Q.le_max_l].
    + apply Q.le_min_l.
  - exists hi. split; [done|]. split; [done | apply Qle_refl].
  - eexists; split; [done|]. split.
    + apply Q.min_glb; [done | apply Qle_refl].
    + apply Q.le_min_l.
Qed.

(** X13.  With the statistics [loadHexData2] computed from the same features,
    [drawHexGrid2] takes [min] and [max] themselves as its domain, and the
    clamp changes no finite value above zero: each feature's colour is read
    at its own value. *)
Theorem hexGrid2_reads_own_value features f q :
  f ∈ features →
  featureValue StringToNumber f = Fin q →
  (0 < q)%Q →
  Stats.min (hexData2StatsOf StringToNumber features) =
    JNumber (Fin (domainMin (Some (hexData2StatsOf StringToNumber features)))) ∧
  Stats.max (hexData2StatsOf StringToNumber features) =
    JNumber (Fin (domainMax (Some (hexData2StatsOf StringToNumber features)))) ∧
  ∃ c, clampedValue StringToNumber
         (domainMin (Some (hexData2StatsOf StringToNumber features)))
         (domainMax (Some (hexData2StatsOf StringToNumber features))) f = Fin c ∧
       (c == q)%Q.
Proof.
  intros Hf Hv Hq.
  assert (q ∈ positiveValues StringToNumber features) as Hin.
  { apply positiveValues_elem. split; [done|]. by exists f. }
  unfold domainMax, domainMin, statsMax, statsMin, hexData2StatsOf, clampedValue.
  destruct (positiveValues StringToNumber features) as [|v vs] eqn:Hvalues.
  { by apply elem_of_nil in Hin. }
  cbn [Stats.min Stats.max].
  assert (arrayMin v vs ∈ positiveValues StringToNumber features) as Hmin
    by (rewrite Hvalues; apply fold_Qmin_member).
  apply positiveValues_elem in Hmin as [Hminpos _].
  assert (arrayMin v vs <= q)%Q as Hlo by (by apply fold_Qmin_lower).
  assert (q <= arrayMax v vs)%Q as Hhi by (by apply fold_Qmax_upper).
  assert (Qltb 0 (arrayMin v vs) = true) as -> by (by apply Qltb_lt).
  assert (Qltb 0 (arrayMax v vs) = true) as -> by (apply Qltb_lt; lra).
  split_and!; [done..|]. rewrite Hv. simpl.
  eexists; split; [done|].
  rewrite (Q.max_r _ _ Hlo). by apply Q.min_r.
Qed.
End ScaleFacts.

(** * Further facts: the order of drawing *)

Lemma num_sub_above x y :
  x ≠ NaN → y ≠ NaN →
  num_ltb (Fin 0) (num_sub x y) = true → num_leb y x = true.
Proof.
  destruct x as [a| | |], y as [b| | |]; simpl; try done.
  intros _ _ H. apply Qltb_lt in H. apply Qle_bool_iff. lra.
Qed.

Lemma num_sub_not_above x y :
  x ≠ NaN → y ≠ NaN →
  num_ltb (Fin 0) (num_sub x y) = false → num_leb x y = true.
Proof.
  destruct x as [a| | |], y as [b| | |]; simpl; try done.
  intros _ _ H. apply Qltb_ge in H. apply Qle_bool_iff. lra.
Qed.

Lemma num_leb_trans x y z :
  num_leb x y = true → num_leb y z = true → num_leb x z = true.
Proof.
  destruct x as [a| | |], y as [b| | |], z as [c| | |]; simpl; try done.
  rewrite !Qle_bool_iff. apply Qle_trans.
Qed.

Section DrawingOrder.
Variable StringToNumber : string → num.

Local Abbreviation valueOf := (featureValue StringToNumber).

Lemma insertByValue_cons x y rest :
  insertByValue StringToNumber x (y :: rest) =
  if num_ltb (Fin 0) (num_sub (valueOf x) (valueOf y))
  then y :: insertByValue StringToNumber x rest
  else x :: y :: rest.
Proof. reflexivity. Qed.

Lemma insertByValue_perm x l : insertByValue StringToNumber x l ≡ₚ x :: l.
Proof.
  induction l as [|y rest IH]; [done|]. rewrite insertByValue_cons.
  destruct (num_ltb (Fin 0) (num_sub (valueOf x) (valueOf y))); [|done].
  rewrite IH. apply perm_swap.
Qed.

Lemma sortByValue_perm l : sortByValue StringToNumber l ≡ₚ l.
Proof.
  induction l as [|x rest IH]; simpl; [done|].
  by rewrite insertByValue_perm, IH.
Qed.

Lemma insertByValue_sorted x l :
  StronglySorted (λ f g, num_leb (valueOf f) (valueOf g) = true) l →
  StronglySorted (λ f g, num_leb (valueOf f) (valueOf g) = true)
                 (insertByValue StringToNumber x l).
Proof.
  induction 1 as [|y rest Hrest IH Hy].
  - repeat constructor.
  - rewrite insertByValue_cons.
    destruct (num_ltb (Fin 0) (num_sub (valueOf x) (valueOf y))) eqn:Hxy.
    + constructor; [done|]. rewrite insertByValue_perm. constructor; [|done].
      apply num_sub_above; [apply featureValue_not_NaN..|done].
    + assert (num_leb (valueOf x) (valueOf y) = true) as Hle
        by (apply num_sub_not_above; [apply featureValue_not_NaN..|done]).
      constructor; [by constructor|]. constructor; [done|].
      eapply Forall_impl; [exact Hy|]. intros z Hz. by eapply num_leb_trans.
Qed.

(** X14.  [drawHexGrid2] and [drawHexGridOnly2] draw exactly the features
    whose value is above zero, each once, and in an order in which the value
    never falls: a feature with a larger value is painted after, hence above,
    one with a smaller value. *)
Theorem sortedHexes_order features :
  sortedHexes StringToNumber features ≡ₚ validFeatures StringToNumber features ∧
  StronglySorted (λ f g, num_leb (valueOf f) (valueOf g) = true)
                 (sortedHexes StringToNumber features) ∧
  ∀ f, f ∈ sortedHexes StringToNumber features ↔
       f ∈ features ∧ num_ltb (Fin 0) (valueOf f) = true.
Proof.
  unfold sortedHexes. split_and!.
  - apply sortByValue_perm.
  - induction (validFeatures StringToNumber features) as [|x l IH]; simpl; [constructor|].
    by apply insertByValue_sorted.
  - intros f. rewrite sortByValue_perm. unfold validFeatures.
    rewrite list_elem_of_filter. split; intros [? ?]; by split.
Qed.
End DrawingOrder.

(** * Further facts: the first data set *)

Lemma Qred_whole z : Qred (inject_Z z) = inject_Z z.
Proof. apply Qcanon.Qred_identity. simpl. apply Z.gcd_1_r. Qed.

Lemma asIndex_whole q k : (q == ofNat k)%Q → asIndex (Fin q) = Some k.
Proof.
  intros Hq. unfold asIndex.
  rewrite (Qred_complete q (ofNat k) Hq). unfold ofNat. rewrite Qred_whole. simpl.
  replace (0 <=? Z.of_nat k)%Z with true by (symmetry; apply Z.leb_le; lia).
  by rewrite Nat2Z.id.
Qed.

Lemma asIndex_Some q k : asIndex (Fin q) = Some k → (q == ofNat k)%Q.
Proof.
  unfold asIndex. pose proof (Qred_correct q) as Hred.
  destruct (Qred q) as [n d]. cbn [Qden Qnum].
  destruct (d =? 1)%positive eqn:Hd; [|done].
  destruct (0 <=? n)%Z eqn:Hn; [|done]. cbn [andb]. intros [= <-].
  apply Pos.eqb_eq in Hd as ->. apply Z.leb_le in Hn.
  rewrite <- Hred. unfold ofNat. by rewrite Z2Nat.id.
Qed.

Lemma sum_list_bump (counts : list nat) i count :
  counts !! i = Some count →
  sum_list (<[i := count + 1]> counts) = sum_list counts + 1.
Proof.
  revert i. induction counts as [|c counts IH]; intros [|i] Hi; simpl in *; try done.
  - simplify_eq. lia.
  - rewrite (IH i Hi). lia.
Qed.

Section HexGridFacts.
Variable StringToNumber : string → num.

Local Abbreviation numberOf := (toNumber StringToNumber).

Lemma isValid_level props :
  HexGrid.isValid StringToNumber (Some (Feature (Some props))) = Some true →
  truthy (default JUndefined (props !! "level")) = true ∧
  ∃ q, numberOf (default JUndefined (props !! "level")) = Fin q ∧ (1 <= q)%Q ∧ (q <= 5)%Q.
Proof.
  unfold HexGrid.isValid. intros [= H].
  repeat (apply andb_true_iff in H as [H ?]).
  split; [done|].
  destruct (numberOf (default JUndefined (props !! "level"))) as [q| | |]; try done.
  exists q. split; [done|]. split; by apply Qle_bool_iff.
Qed.

(** X15.  A feature that passes the filter of [drawHexGrid] is never painted
    in the grey of missing data, and when its level is a whole number [k] it
    is painted in [colors[k - 1]], which exists. *)
Theorem getColor_of_valid props :
  HexGrid.isValid StringToNumber (Some (Feature (Some props))) = Some true →
  HexGrid.getColor StringToNumber (default JUndefined (props !! "level")) ≠ Some "#f0f0f0" ∧
  ∀ q k,
    numberOf (default JUndefined (props !! "level")) = Fin q → (q == ofNat k)%Q →
    ∃ colour,
      HexGrid.getColor StringToNumber (default JUndefined (props !! "level")) = Some colour ∧
      HexGrid.colors !! (k - 1) = Some colour.
Proof.
  intros Hvalid. destruct (isValid_level props Hvalid) as (Htruthy & q & Hq & Hge & Hle).
  unfold HexGrid.getColor. rewrite Htruthy, Hq. cbn [negb orb num_ltb].
  replace (Qltb q 1) with false by (symmetry; by apply Qltb_ge).
  replace (Qltb 5 q) with false by (symmetry; by apply Qltb_ge).
  cbn [orb num_sub]. split.
  - destruct (asIndex (Fin (q - 1))) as [index|]; [|done]. simpl.
    destruct index as [|[|[|[|[|index]]]]]; done.
  - intros q' k [= <-] Hk.
    assert (1 ≤ k ≤ 5) as Hrange.
    { rewrite Hk in Hge, Hle. unfold ofNat in *.
      change 1%Q with (inject_Z 1) in Hge. change 5%Q with (inject_Z 5) in Hle.
      rewrite <- Zle_Qle in Hge, Hle. lia. }
    rewrite (asIndex_whole (q - 1) (k - 1)).
    + simpl. destruct (lookup_lt_is_Some_2 HexGrid.colors (k - 1)) as [colour Hc];
        [simpl; lia|]. by exists colour.
    + rewrite Hk. unfold ofNat. replace (Z.of_nat (k - 1)) with (Z.of_nat k - 1)%Z by lia.
      unfold Zminus. rewrite inject_Z_plus. reflexivity.
Qed.

Lemma validFeatures_valid features : ∀ valid,
  HexGrid.validFeatures StringToNumber features = Some valid →
  length valid ≤ length features ∧
  ∀ d, d ∈ valid → d ∈ features ∧ HexGrid.isValid StringToNumber d = Some true.
Proof.
  induction features as [|d rest IH]; intros valid Hvalid; simpl in Hvalid.
  - simplify_eq. split; [done|]. intros d Hd. by apply elem_of_nil in Hd.
  - destruct (HexGrid.isValid StringToNumber d) as [[|]|] eqn:Hd; [| |done].
    + destruct (HexGrid.validFeatures StringToNumber rest) as [rest'|]; [|done].
      simplify_eq. destruct (IH rest' eq_refl) as [Hlen Hall].
      split; [simpl; lia|]. intros d' [->|Hd']%elem_of_cons.
      * split; [by left|done].
      * destruct (Hall d' Hd'). split; [by right|done].
    + destruct (HexGrid.validFeatures StringToNumber rest) as [rest'|]; [|done].
      simplify_eq. destruct (IH valid eq_refl) as [Hlen Hall].
      split; [simpl; lia|]. intros d' Hd'. destruct (Hall d' Hd'). split; [by right|done].
Qed.

Lemma countLevel_valid props counts :
  HexGrid.isValid StringToNumber (Some (Feature (Some props))) = Some true →
  length counts = 5 →
  ∃ counts',
    HexGrid.countLevel StringToNumber (Some (Feature (Some props))) counts = Some counts' ∧
    length counts' = 5 ∧
    sum_list counts ≤ sum_list counts' ≤ sum_list counts + 1 ∧
    (∀ q k, numberOf (default JUndefined (props !! "level")) = Fin q → (q == ofNat k)%Q →
       sum_list counts' = sum_list counts + 1).
Proof.
  intros Hvalid Hlen.
  destruct (isValid_level props Hvalid) as (Htruthy & q & Hq & Hge & Hle).
  unfold HexGrid.countLevel. rewrite Hq. cbn [num_leb num_sub].
  replace (Qle_bool 1 q) with true by (symmetry; by apply Qle_bool_iff).
  replace (Qle_bool q 5) with true by (symmetry; by apply Qle_bool_iff).
  cbn [andb].
  destruct (asIndex (Fin (q - 1))) as [index|] eqn:Hindex.
  - assert (index < 5) as Hlt.
    { apply asIndex_Some in Hindex.
      assert (ofNat index <= 4)%Q as H4 by (rewrite <- Hindex; lra).
      unfold ofNat in H4. change 4%Q with (inject_Z 4) in H4.
      rewrite <- Zle_Qle in H4. lia. }
    destruct (lookup_lt_is_Some_2 counts index ltac:(lia)) as [count Hcount].
    rewrite Hcount. eexists; split; [done|].
    rewrite length_insert, (sum_list_bump counts index count Hcount).
    split_and!; [done|lia|lia|done].
  - exists counts. split_and!; [done|done|lia|lia|].
    intros q' k [= <-] Hk.
    assert (1 ≤ k) as Hk1.
    { rewrite Hk in Hge. unfold ofNat in Hge. change 1%Q with (inject_Z 1) in Hge.
      rewrite <- Zle_Qle in Hge. lia. }
    rewrite (asIndex_whole (q - 1) (k - 1)) in Hindex; [done|].
    rewrite Hk. unfold ofNat. replace (Z.of_nat (k - 1)) with (Z.of_nat k - 1)%Z by lia.
    unfold Zminus. rewrite inject_Z_plus. reflexivity.
Qed.

Lemma countLevels_valid valid : ∀ counts,
  (∀ d, d ∈ valid → HexGrid.isValid StringToNumber d = Some true) →
  length counts = 5 →
  ∃ counts',
    HexGrid.countLevels StringToNumber valid counts = Some counts' ∧
    length counts' = 5 ∧
    sum_list counts ≤ sum_list counts' ≤ sum_list counts + length valid ∧
    ((∀ props, Some (Feature (Some props)) ∈ valid →
        ∃ q k, numberOf (default JUndefined (props !! "level")) = Fin q ∧ (q == ofNat k)%Q) →
     sum_list counts' = sum_list counts + length valid).
Proof.
  induction valid as [|d rest IH]; intros counts Hvalid Hlen.
  - exists counts. simpl. split_and!; [done|done|lia|lia|]. intros _. lia.
  - assert (HexGrid.isValid StringToNumber d = Some true) as Hd by (apply Hvalid; by left).
    destruct d as [[[props|]]|]; try done.
    destruct (countLevel_valid props counts Hd Hlen) as (c1 & Hc1 & Hlen1 & Hsum1 & Hwhole1).
    destruct (IH c1) as (c2 & Hc2 & Hlen2 & Hsum2 & Hwhole2); [|done|].
    { intros d' Hd'. apply Hvalid. by right. }
    exists c2. cbn [HexGrid.countLevels]. rewrite Hc1. simpl. rewrite Hc2.
    split_and!; [done|done|lia|simpl; lia|].
    intros Hall. simpl.
    destruct (Hall props ltac:(by left)) as (q & k & Hq & Hk).
    rewrite Hwhole2, (Hwhole1 q k Hq Hk); [lia|].
    intros props' Hin. apply Hall. by right.
Qed.

(** X16.  The counts [drawHexGrid] puts in the legend: there are five of
    them, they never add up to more than the number of features drawn, and
    they add up to exactly that number when every level drawn is a whole
    number. *)
Theorem classCounts_total features valid :
  HexGrid.validFeatures StringToNumber features = Some valid →
  ∃ counts,
    HexGrid.classCounts StringToNumber valid = Some counts ∧
    length counts = 5 ∧
    sum_list counts ≤ length valid ∧
    ((∀ props, Some (Feature (Some props)) ∈ valid →
        ∃ q k, numberOf (default JUndefined (props !! "level")) = Fin q ∧ (q == ofNat k)%Q) →
     sum_list counts = length valid).
Proof.
  intros Hvalid. destruct (validFeatures_valid features valid Hvalid) as [_ Hall].
  destruct (countLevels_valid valid (replicate (length HexGrid.colors) 0))
    as (counts & Hcounts & Hlen & Hsum & Hwhole).
  - intros d Hd. by destruct (Hall d Hd).
  - done.
  - exists counts. split_and!; [done|done|simpl in Hsum; lia|].
    intros H. rewrite (Hwhole H). simpl. lia.
Qed.
End HexGridFacts.

(** * Further facts: the grid of squares *)

Lemma readKey_cases {A} (table : list A) key :
  (∃ a, GridOnly.readKey table key = GridOnly.Entry a ∧ a ∈ table) ∨
  (∃ name, GridOnly.readKey table key = GridOnly.Inherited name ∧
           key = JString name ∧ name ∈ GridOnly.objectPrototype) ∨
  GridOnly.readKey table key = GridOnly.Undefined.
Proof.
  unfold GridOnly.readKey.
  destruct (GridOnly.levelSlot key ≫= (table !!.)) as [a|] eqn:Hslot.
  - left. exists a. split; [done|].
    apply bind_Some in Hslot as (k & _ & Hk). by eapply list_elem_of_lookup_2.
  - destruct key as [| |b|x|name]; try by right; right.
    case_bool_decide as Hname; [|by right; right].
    right; left. by exists name.
Qed.

Lemma readKey_whole {A} (table : list A) q k :
  (q == ofNat k)%Q →
  GridOnly.readKey table (JNumber (Fin q)) =
    from_option GridOnly.Entry GridOnly.Undefined (table !! k).
Proof.
  intros Hk. unfold GridOnly.readKey. cbn [GridOnly.levelSlot].
  rewrite (asIndex_whole q k Hk). simpl. by destruct (table !! k).
Qed.

Lemma whole_zero q k : (q == 0)%Q → (q == ofNat k)%Q → k = 0.
Proof.
  intros Hzero Hk. rewrite Hzero in Hk.
  unfold ofNat in Hk. change 0%Q with (inject_Z 0) in Hk.
  apply (proj1 (inject_Z_injective _ _)) in Hk. lia.
Qed.

(** X17.  [getColorByLevel] of [drawGridOnly] answers one of its six colours
    for every level but a string that names a member of [Object.prototype],
    for which it answers that member.  A whole level [k] from 0 to 5 gets
    the colour of key [k], [null] and [undefined] get the grey of level 0,
    and a level for which the table has nothing (6, 2.5, NaN, [true], a
    word) gets the colour of level 1, not the grey. *)
Theorem getColorByLevel_answers level :
  ((∀ name, level = JString name → name ∉ GridOnly.objectPrototype) →
   ∃ colour, GridOnly.getColorByLevel level = GridOnly.Entry colour ∧
             colour ∈ GridOnly.levelColors) ∧
  (∀ name, level = JString name → name ∈ GridOnly.objectPrototype →
     GridOnly.getColorByLevel level = GridOnly.Inherited name) ∧
  (∀ q k, level = JNumber (Fin q) → (q == ofNat k)%Q → k ≤ 5 →
     GridOnly.Entry <$> GridOnly.levelColors !! k =
       Some (GridOnly.getColorByLevel level)) ∧
  (level = JNull ∨ level = JUndefined →
     GridOnly.getColorByLevel level = GridOnly.Entry "#e0e0e0") ∧
  (GridOnly.readKey GridOnly.levelColors level = GridOnly.Undefined →
   level ≠ JNull → level ≠ JUndefined →
     GridOnly.getColorByLevel level = GridOnly.Entry "#1a237e").
Proof.
  assert (∀ c, c ∈ GridOnly.levelColors → GridOnly.nonEmpty c = true) as Htruthy.
  { apply Forall_forall. by repeat constructor. }
  assert (GridOnly.readKey GridOnly.levelColors (number 0) = GridOnly.Entry "#e0e0e0")
    as Hgrey by reflexivity.
  assert (GridOnly.readKey GridOnly.levelColors (number 1) = GridOnly.Entry "#1a237e")
    as Hblue by reflexivity.
  split_and!.
  - intros Hown. unfold GridOnly.getColorByLevel.
    destruct (match level with
              | JNumber (Fin q) => Qeq_bool q 0
              | JNull | JUndefined => true
              | _ => false
              end).
    { rewrite Hgrey. eexists; split; [done|]. by left. }
    rewrite Hblue.
    destruct (readKey_cases GridOnly.levelColors level)
      as [(c & -> & Hc) | [(name & _ & -> & Hname) | ->]]; simpl.
    + rewrite (Htruthy c Hc). by exists c.
    + by destruct (Hown name).
    + eexists; split; [done|]. right. by left.
  - intros name -> Hname. unfold GridOnly.getColorByLevel, GridOnly.readKey.
    assert (GridOnly.levelSlot (JString name) = None) as ->.
    { revert Hname. unfold GridOnly.objectPrototype.
      rewrite !elem_of_cons, elem_of_nil. intros Hname.
      repeat (destruct Hname as [-> | Hname]; [done|]). done. }
    simpl. by rewrite bool_decide_eq_true_2.
  - intros q k -> Hk Hk5. unfold GridOnly.getColorByLevel.
    destruct (Qeq_bool q 0) eqn:Hzero.
    + apply Qeq_bool_iff in Hzero. rewrite (whole_zero q k Hzero Hk). by rewrite Hgrey.
    + rewrite (readKey_whole _ q k Hk).
      by destruct k as [|[|[|[|[|[|k]]]]]]; [..|lia].
  - intros [-> | ->]; unfold GridOnly.getColorByLevel; by rewrite Hgrey.
  - intros Hread Hnull Hundef. unfold GridOnly.getColorByLevel.
    destruct level as [| |b|[q| | |]|s]; try done; try (by rewrite Hread, Hblue).
    destruct (Qeq_bool q 0) eqn:Hzero; [|by rewrite Hread, Hblue].
    apply Qeq_bool_iff in Hzero. by rewrite (readKey_whole _ q 0) in Hread.
Qed.

(** X18.  [getOpacityByLevel] answers one of its six opacities, so a number
    from 0.5 to 0.9, for every level but a string that names a member of
    [Object.prototype]; a whole level from 0 to 5 gets the opacity of its
    key, and a level for which the table has nothing gets 0.5. *)
Theorem getOpacityByLevel_answers level :
  ((∀ name, level = JString name → name ∉ GridOnly.objectPrototype) →
   ∃ opacity, GridOnly.getOpacityByLevel level = GridOnly.Entry opacity ∧
              (1 # 2 <= opacity)%Q ∧ (opacity <= 9 # 10)%Q) ∧
  (∀ q k, level = JNumber (Fin q) → (q == ofNat k)%Q → k ≤ 5 →
     GridOnly.Entry <$> GridOnly.opacityMap !! k =
       Some (GridOnly.getOpacityByLevel level)) ∧
  (GridOnly.readKey GridOnly.opacityMap level = GridOnly.Undefined →
     GridOnly.getOpacityByLevel level = GridOnly.Entry (1 # 2)).
Proof.
  assert (∀ o, o ∈ GridOnly.opacityMap →
            GridOnly.nonZero o = true ∧ (1 # 2 <= o)%Q ∧ (o <= 9 # 10)%Q) as Htable.
  { apply Forall_forall. by repeat constructor. }
  assert (GridOnly.readKey GridOnly.opacityMap (number 0) = GridOnly.Entry (1 # 2))
    as Hhalf by reflexivity.
  split_and!.
  - intros Hown. unfold GridOnly.getOpacityByLevel. rewrite Hhalf.
    destruct (truthy level) eqn:Htruthy.
    + destruct (readKey_cases GridOnly.opacityMap level)
        as [(o & -> & Ho) | [(name & _ & -> & Hname) | ->]]; simpl.
      * destruct (Htable o Ho) as (-> & ? & ?). by exists o.
      * by destruct (Hown name).
      * by eexists.
    + rewrite Hhalf. simpl. by eexists.
  - intros q k -> Hk Hk5. unfold GridOnly.getOpacityByLevel. cbn [truthy].
    rewrite Hhalf.
    destruct (Qeq_bool q 0) eqn:Hzero; cbn [negb].
    + apply Qeq_bool_iff in Hzero. rewrite (whole_zero q k Hzero Hk).
      by rewrite Hhalf.
    + rewrite (readKey_whole _ q k Hk).
      by destruct k as [|[|[|[|[|[|k]]]]]]; [..|lia].
  - intros Hread. unfold GridOnly.getOpacityByLevel. rewrite Hhalf.
    destruct (truthy level); [by rewrite Hread|]. by rewrite Hhalf.
Qed.

(** * The further facts at concrete inputs *)

Lemma ensureHexData2Levels_never_falls_back_witness :
  calculateNaturalBreaks (map Fin [3; 7]%Q) (length prideColors) ≠ Null.
Proof.
  refine (proj1 (ensureHexData2Levels_never_falls_back
                   (λ _, NaN) threeHexagons [] 3%Q [7%Q] _)).
  by vm_compute.
Defined.

Lemma ensureHexData2Levels_levels_witness :
  ∃ fs breaks,
    ensureHexData2Levels (λ _, NaN) (MapState (Some threeHexagons) []) =
      Done (MapState (Some fs) breaks) Normal ∧
    length breaks = 7.
Proof.
  destruct (ensureHexData2Levels_levels (λ _, NaN) threeHexagons [])
    as (fs & breaks & Hdone & Hlen & _).
  - repeat constructor; by eexists.
  - by vm_compute.
  - by vm_compute.
  - by exists fs, breaks.
Defined.

Lemma loadHexData2_breaks_span_stats_witness :
  ∃ stats s' c lo hi first final,
    loadHexData2 (λ _, NaN) (Some threeHexagons) (MapState None []) = (stats, Done s' c) ∧
    Stats.min stats = JNumber (Fin lo) ∧ Stats.max stats = JNumber (Fin hi) ∧
    hexData2Breaks s' !! 0 = Some first ∧ last (hexData2Breaks s') = Some final ∧
    (first == lo)%Q ∧ (final == hi)%Q.
Proof.
  apply (loadHexData2_breaks_span_stats (λ _, NaN) threeHexagons (MapState None [])).
  - by vm_compute.
  - by vm_compute.
Defined.

Lemma loadHexData2_nothing_positive_witness :
  loadHexData2 (λ _, NaN) (Some [featureWith (number 0); None]) (MapState None [1%Q]) =
    (Stats.Make (JNumber (Fin 0)) (JNumber (Fin 0)) 0,
     Done (MapState (Some [featureWith (number 0); None]) []) Normal).
Proof.
  apply (loadHexData2_nothing_positive (λ _, NaN) [featureWith (number 0); None]
           (MapState None [1%Q])).
  by vm_compute.
Defined.

Lemma hexGrid2_reads_own_value_witness :
  ∃ c, clampedValue (λ _, NaN)
         (domainMin (Some (hexData2StatsOf (λ _, NaN) threeHexagons)))
         (domainMax (Some (hexData2StatsOf (λ _, NaN) threeHexagons)))
         (featureWith (number 3)) = Fin c ∧
       (c == 3)%Q.
Proof.
  destruct (hexGrid2_reads_own_value (λ _, NaN) threeHexagons (featureWith (number 3)) 3%Q)
    as (_ & _ & Hclamp).
  - by left.
  - reflexivity.
  - reflexivity.
  - exact Hclamp.
Defined.

Lemma getColor_of_valid_witness :
  HexGrid.getColor (λ _, NaN) (default JUndefined (levelThree !! "level")) ≠ Some "#f0f0f0".
Proof.
  destruct (getColor_of_valid (λ _, NaN) levelThree) as [Hcolour _].
  - by vm_compute.
  - exact Hcolour.
Defined.

Lemma classCounts_total_witness :
  ∃ counts,
    HexGrid.classCounts (λ _, NaN) [Some (Feature (Some levelThree))] = Some counts ∧
    length counts = 5.
Proof.
  destruct (classCounts_total (λ _, NaN)
              [Some (Feature (Some levelThree)); featureWith (number 3)]
              [Some (Feature (Some levelThree))])
    as (counts & Hcounts & Hlen & _).
  - by vm_compute.
  - by exists counts.
Defined.
